(** * Schema migrations of the fn datastore: sequencing and version reconciliation

    Shallow embedding of [api/datastore/sql/migrations/migrations.go].

    Conventions of the embedding:
    - Go's [int64] versions are integers of [Z].  The code performs no
      arithmetic on versions (apart from the [+1] inside two log messages),
      so no wrap-around can occur; the sentinel [int64(-1)] is [-1].
    - [goose.Migrations] is a slice of pointers to records.  It is a list
      of records here; with pairwise distinct versions no record occurs
      twice in the slice, so updating the record at an index of the list
      is what the writes through the pointers do.
    - the database handle, the SQL driver and the goose dialect layer are
      external: they are the operations of the class [Driver], and a small
      simulated database ([Sim]) instantiates them for concrete runs.
    - every invocation of a forward or reverse action is recorded in a
      trace kept next to the database, so that "is invoked", "is never
      invoked" and "in order" are statements about that trace. *)

From stdpp Require Import base numbers list strings sorting.

Local Open Scope Z_scope.

(** ** Errors *)

(** Go error values as far as the code distinguishes them: the sentinels
    it compares against ([sql.ErrNoRows], [goose.ErrNoNextVersion]), the one
    [Current] returns, and any other error with its message. *)
Inductive error : Type :=
  | ErrNoRows
  | ErrNoNextVersion
  | ErrNoCurrentVersion
  | ErrOther (msg : string).

#[global] Instance error_eq_dec : EqDecision error.
Proof. solve_decision. Defined.

(** ** Migration records *)

(** [goose.Migration], with the fields the code reads and writes.  The
    forward and reverse actions ([Up], [Down]) are run by the dialect layer
    and are parameters of the engine below. *)
Record Migration : Type := mkMigration {
  Version : Z;
  Next : Z;
  Previous : Z;
  Source : string
}.

#[global] Instance Migration_eq_dec : EqDecision Migration.
Proof. solve_decision. Defined.

(** [goose.Migrations] *)
Abbreviation Migrations := (list Migration).

(** [m.Next = n] and [m.Previous = p] *)
Definition set_Next (n : Z) (m : Migration) : Migration :=
  {| Version := Version m; Next := n; Previous := Previous m; Source := Source m |}.

Definition set_Previous (p : Z) (m : Migration) : Migration :=
  {| Version := Version m; Next := Next m; Previous := p; Source := Source m |}.

Definition versions (ms : Migrations) : list Z := Version <$> ms.

(** ** sort.Sort over goose.Migrations *)

(** [Migrations.Less] of goose: it panics when the two versions are equal
    and compares them otherwise.  [None] is the panic. *)
Definition Less (a b : Migration) : option bool :=
  if decide (Version a = Version b) then None
  else Some (bool_decide (Version a < Version b)).

(** [sort.Sort] is a comparison sort that calls [Less]; it is an insertion
    sort here.  For pairwise distinct versions the result of any comparison
    sort is the same list ([sort_Sort_unique] below), and a repeated version
    reaches [Less] and panics. *)
Fixpoint insert_by_Less (m : Migration) (l : Migrations) : option Migrations :=
  match l with
  | [] => Some [m]
  | x :: l' =>
      match Less m x with
      | None => None
      | Some true => Some (m :: x :: l')
      | Some false =>
          match insert_by_Less m l' with
          | None => None
          | Some r => Some (x :: r)
          end
      end
  end.

Fixpoint sort_Sort (ms : Migrations) : option Migrations :=
  match ms with
  | [] => Some []
  | m :: ms' =>
      match sort_Sort ms' with
      | None => None
      | Some s => insert_by_Less m s
      end
  end.

(** Ascending by version, without repetition. *)
Definition ascending (ms : Migrations) : Prop :=
  StronglySorted (λ a b, Version a < Version b) ms.

(** ** sortAndConnectMigrations *)

(** One iteration of [for i, m := range migrations]:
<<
    prev := int64(-1)
    if i > 0 {
        prev = migrations[i-1].Version
        migrations[i-1].Next = m.Version
    }
    migrations[i].Previous = prev
>> *)
Definition connect_step (ms : Migrations) (i : nat) : Migrations :=
  match ms !! i with
  | None => ms
  | Some m =>
      let prev := -1 in
      let '(prev, ms) :=
        if bool_decide (0 < i)%nat then
          match ms !! (i - 1)%nat with
          | Some p => (Version p, <[(i - 1)%nat := set_Next (Version m) p]> ms)
          | None => (prev, ms)
          end
        else (prev, ms) in
      alter (set_Previous prev) i ms
  end.

(** The whole range loop: indices [0 .. len-1] in order. *)
Definition connect (ms : Migrations) : Migrations :=
  foldl connect_step ms (seq 0 (length ms)).

(** The slice after the first [i] iterations of the range loop, in closed
    form: record [j] has its [Previous] once [j < i] and its [Next] once
    [j + 1 < i].  It is the invariant of the loop
    ([foldl_connect_step] below). *)
Definition link_at (ms : Migrations) (i j : nat) (m : Migration) : Migration :=
  let next :=
    if bool_decide (S j < i)%nat then from_option Version (Next m) (ms !! S j)
    else Next m in
  let previous :=
    if bool_decide (j < i)%nat then
      match j with
      | O => -1
      | S j' => from_option Version (-1) (ms !! j')
      end
    else Previous m in
  mkMigration (Version m) next previous (Source m).

Definition link_upto (ms : Migrations) (i : nat) : Migrations :=
  imap (link_at ms i) ms.

(** [sortAndConnectMigrations]; [None] is the panic of [Less]. *)
Definition sortAndConnectMigrations (migrations : Migrations) : option Migrations :=
  match sort_Sort migrations with
  | None => None
  | Some sorted => Some (connect sorted)
  end.

(** [Migrations.Current] of goose: the first record whose version is the
    given one; [None] is [ErrNoCurrentVersion]. *)
Fixpoint Current (ms : Migrations) (current : Z) : option Migration :=
  match ms with
  | [] => None
  | migration :: rest =>
      if decide (Version migration = current) then Some migration
      else Current rest current
  end.

(** ** The database and the dialect layer *)

(** What [db.QueryRowContext(ctx, q).Scan(&version, &dirty)] does to its two
    destinations and what it returns.  [database/sql] leaves the
    destinations untouched when the query fails or has no row, and fills
    them left to right otherwise, stopping at the first column it cannot
    convert. *)
Inductive ScanResult : Type :=
  | ScanRow (version : Z) (dirty : bool)   (* both stored, returns nil *)
  | ScanNoRows                             (* returns sql.ErrNoRows *)
  | ScanFail (e : error)                   (* nothing stored, returns e *)
  | ScanPartial (version : Z) (e : error). (* version stored, returns e *)

(** The value of [version] after the call, given its value before. *)
Definition stored_version (r : ScanResult) (before : Z) : Z :=
  match r with
  | ScanRow v _ | ScanPartial v _ => v
  | ScanNoRows | ScanFail _ => before
  end.

(** The value of [dirty] after the call, given its value before. *)
Definition stored_dirty (r : ScanResult) (before : bool) : bool :=
  match r with
  | ScanRow _ d => d
  | ScanNoRows | ScanFail _ | ScanPartial _ _ => before
  end.

(** The error value the call returns. *)
Definition scan_error (r : ScanResult) : option error :=
  match r with
  | ScanRow _ _ => None
  | ScanNoRows => Some ErrNoRows
  | ScanFail e | ScanPartial _ e => Some e
  end.

(** The capabilities the code uses on a database handle: statements and
    queries of [database/sql], and the version table and the execution
    hooks of goose.  Each may change the database, so each returns the
    database it leaves. *)
Class Driver (DB : Type) : Type := {
  ExecContext : string → DB → DB * option error;
  QueryRowScan : string → DB → ScanResult;
  GetDBVersion : DB → DB * (Z * option error);
  Up : Migration → DB → DB * option error;
  Down : Migration → DB → DB * option error
}.

(** An invocation of a forward or of a reverse action, by version. *)
Inductive Event : Type :=
  | EvUp (v : Z)
  | EvDown (v : Z).

#[global] Instance Event_eq_dec : EqDecision Event.
Proof. solve_decision. Defined.

#[global] Instance EvUp_inj : Inj (=) (=) EvUp.
Proof. by intros v1 v2 [= ->]. Defined.

(** The package-level registry [migrations], the database behind the
    handle, and the actions invoked so far. *)
Record World (DB : Type) : Type := mkWorld {
  migrations : Migrations;
  db : DB;
  trace : list Event
}.
Arguments mkWorld {DB} _ _ _.
Arguments migrations {DB} _.
Arguments db {DB} _.
Arguments trace {DB} _.

Definition with_db {DB} (w : World DB) (d : DB) : World DB :=
  mkWorld (migrations w) d (trace w).

Definition with_migrations {DB} (w : World DB) (ms : Migrations) : World DB :=
  mkWorld ms (db w) (trace w).

Definition record {DB} (w : World DB) (d : DB) (ev : Event) : World DB :=
  mkWorld (migrations w) d (trace w ++ [ev]).

(** Modelled from the spec: the logger of [api/common] ([common.Logger]) is
    not among the sources.  A dirty legacy row is fatal and the engine must
    terminate the startup sequence, so [log.Fatal] ends the run ([Exit]);
    [log.Debug] and [log.Error] only write messages and are left out.

    How a call ends: it returns ([Ret]), the process exits ([Exit]), or it
    panics ([Panic]: [Less] on equal versions, a slice bound out of
    range). *)
Inductive Result (A : Type) : Type :=
  | Ret (a : A)
  | Exit
  | Panic.
Arguments Ret {A} _.
Arguments Exit {A}.
Arguments Panic {A}.

(** The baseline tables: [var tables], one DDL statement each. *)
Definition tables : list string := [
"CREATE TABLE IF NOT EXISTS routes (
	app_name varchar(256) NOT NULL,
	path varchar(256) NOT NULL,
	image varchar(256) NOT NULL,
	format varchar(16) NOT NULL,
	memory int NOT NULL,
	cpus int,
	timeout int NOT NULL,
	idle_timeout int NOT NULL,
	type varchar(16) NOT NULL,
	headers text NOT NULL,
	config text NOT NULL,
	created_at text,
	updated_at varchar(256),
	PRIMARY KEY (app_name, path)
);";
"CREATE TABLE IF NOT EXISTS apps (
	name varchar(256) NOT NULL PRIMARY KEY,
	config text NOT NULL,
	created_at varchar(256),
	updated_at varchar(256)
);";
"CREATE TABLE IF NOT EXISTS calls (
	created_at varchar(256) NOT NULL,
	started_at varchar(256) NOT NULL,
	completed_at varchar(256) NOT NULL,
	status varchar(256) NOT NULL,
	id varchar(256) NOT NULL,
	app_name varchar(256) NOT NULL,
	path varchar(256) NOT NULL,
	stats text,
	error text,
	PRIMARY KEY (id)
);";
"CREATE TABLE IF NOT EXISTS logs (
	id varchar(256) NOT NULL PRIMARY KEY,
	app_name varchar(256) NOT NULL,
	log text NOT NULL
);"
]%string.

(** The slice expression [s[low:]]: it panics ([None]) unless
    [0 <= low <= len(s)]. *)
Definition slice_from (s : Migrations) (low : Z) : option Migrations :=
  if bool_decide (0 ≤ low ≤ Z.of_nat (length s)) then Some (drop (Z.to_nat low) s)
  else None.

(** The query of [checkOldMigrationTableVersionIfExists] on the legacy
    single-row table. *)
Definition migrationsTable : string := "schema_migrations".

Definition old_version_query : string :=
  "SELECT version, dirty FROM " +:+ migrationsTable +:+ " LIMIT 1".

Section Engine.
Context {DB : Type} `{!Driver DB}.

(** [checkOldMigrationTableVersionIfExists].  The results are named, so
    [version], [dirty] and [err] start as [0], [false] and [nil].  The
    value [q.Scan] returns is not assigned to anything: [err] is still
    [nil] when it is tested. *)
Definition checkOldMigrationTableVersionIfExists (d : DB) : Z * bool * option error :=
  let q := QueryRowScan old_version_query d in
  let version := stored_version q 0 in
  let dirty := stored_dirty q false in
  let err : option error := None in
  match err with
  | Some ErrNoRows => (-1, false, None)
  | Some e => (-1, false, Some e)
  | None => (version, dirty, None)
  end.

(** [checkOldMigration].  [sort.Sort] works in place on the array the
    package-level slice shares, so the registry is left sorted and
    linked. *)
Definition checkOldMigration (w : World DB)
  : Result (Z * Migrations * option error) * World DB :=
  match sortAndConnectMigrations (migrations w) with
  | None => (Panic, w)
  | Some migrationsSorted =>
      let w := with_migrations w migrationsSorted in
      let '(current, dirty, err) := checkOldMigrationTableVersionIfExists (db w) in
      match err with
      | Some e => (Ret (-1, [], Some e), w)
      | None =>
          if dirty then (Exit, w)
          else if bool_decide (0 < current) then
            (* only partial upgrade, for the last version in old migration table *)
            match slice_from migrationsSorted current with
            | None => (Panic, w)
            | Some left_ => (Ret (current, left_, None), w)
            end
          else
            (* full upgrade *)
            (Ret (-1, migrationsSorted, None), w)
      end
  end.

(** [for _, v := range tables { db.ExecContext(ctx, v) ... }] *)
Fixpoint create_tables (stmts : list string) (d : DB) : DB * option error :=
  match stmts with
  | [] => (d, None)
  | v :: rest =>
      match ExecContext v d with
      | (d', Some err) => (d', Some err)
      | (d', None) => create_tables rest d'
      end
  end.

(** [for _, m := range left { if err := m.Up(db); err != nil { return err } }] *)
Fixpoint apply_left (left : Migrations) (w : World DB) : option error * World DB :=
  match left with
  | [] => (None, w)
  | m :: rest =>
      let '(d', err) := Up m (db w) in
      let w' := record w d' (EvUp (Version m)) in
      match err with
      | Some e => (Some e, w')
      | None => apply_left rest w'
      end
  end.

(** The second half of [ApplyMigrations], from the call of
    [checkOldMigration] on: the legacy-derived migrations are run only
    when [gooseCurrent < migrateCurrent]. *)
Definition upgrade_from (gooseCurrent : Z) (w : World DB)
  : Result (option error) * World DB :=
  match checkOldMigration w with
  | (Panic, w) => (Panic, w)
  | (Exit, w) => (Exit, w)
  | (Ret (_, _, Some err), w) => (Ret (Some err), w)
  | (Ret (migrateCurrent, left_, None), w) =>
      (* do not run the migrations if goose version is higher than old migrate version *)
      if bool_decide (gooseCurrent < migrateCurrent) then
        match apply_left left_ w with
        | (Some err, w) => (Ret (Some err), w)
        | (None, w) => (Ret None, w)
        end
      else (Ret None, w)
  end.

(** [ApplyMigrations]: the baseline tables, the version goose reports
    (an error other than [ErrNoNextVersion] is returned), then the
    upgrade. *)
Definition ApplyMigrations (w : World DB) : Result (option error) * World DB :=
  match create_tables tables (db w) with
  | (d1, Some err) => (Ret (Some err), with_db w d1)
  | (d1, None) =>
      let '(d2, (gooseCurrent, err)) := GetDBVersion d1 in
      let w := with_db w d2 in
      match err with
      | Some e =>
          if bool_decide (e ≠ ErrNoNextVersion) then (Ret (Some e), w)
          else upgrade_from gooseCurrent w
      | None => upgrade_from gooseCurrent w
      end
  end.

(** The body of the [for] loop of [DownAll], run at most [fuel] times.
    [None] in the first component: the loop is still running after
    [fuel] iterations; the world holds what it has done so far. *)
Fixpoint DownAll_loop (fuel : nat) (w : World DB)
  : option (Result (option error)) * World DB :=
  match fuel with
  | O => (None, w)
  | S fuel' =>
      let '(d1, (currentVersion, err)) := GetDBVersion (db w) in
      let w := with_db w d1 in
      match err with
      | Some e => (Some (Ret (Some e)), w)
      | None =>
          match Current (migrations w) currentVersion with
          | None => (Some (Ret None), w)
          | Some current =>
              if bool_decide (Version current ≤ 1) then (Some (Ret None), w)
              else
                let '(d2, err) := Down current (db w) in
                let w := record w d2 (EvDown (Version current)) in
                match err with
                | Some e => (Some (Ret (Some e)), w)
                | None => DownAll_loop fuel' w
                end
          end
      end
  end.

(** [DownAll]: the registry is sorted and linked, then the loop runs.
    [goose.SetDialect(driver)] selects the dialect the [Driver] stands
    for, and the [fmt.Printf] calls only print. *)
Definition DownAll (fuel : nat) (w : World DB)
  : option (Result (option error)) * World DB :=
  match sortAndConnectMigrations (migrations w) with
  | None => (Some Panic, w)
  | Some sorted => DownAll_loop fuel (with_migrations w sorted)
  end.
End Engine.

(** The actions a run has added to the trace of the world it started in. *)
Definition invoked {DB} (before after : World DB) : list Event :=
  drop (length (trace before)) (trace after).

(** ** A simulated database *)

(** A database that keeps the stack of versions goose has applied (the
    latest first), the row of the legacy table as a scan would see it, and
    the versions whose forward action fails.  It instantiates [Driver] for
    the concrete runs below. *)
Module Sim.
Record DB : Type := mkDB {
  applied : list Z;
  legacy : ScanResult;
  failing_up : list Z
}.

Definition boom : error := ErrOther "boom".

Definition sim_GetDBVersion (d : DB) : DB * (Z * option error) :=
  (d, (hd 0 (applied d), None)).

Definition sim_Up (m : Migration) (d : DB) : DB * option error :=
  if bool_decide (Version m ∈ failing_up d) then (d, Some boom)
  else (mkDB (Version m :: applied d) (legacy d) (failing_up d), None).

Definition sim_Down (m : Migration) (d : DB) : DB * option error :=
  (mkDB (tail (applied d)) (legacy d) (failing_up d), None).

#[global] Instance driver : Driver DB := {|
  ExecContext := fun _ d => (d, None);
  QueryRowScan := fun _ d => legacy d;
  GetDBVersion := sim_GetDBVersion;
  Up := sim_Up;
  Down := sim_Down
|}.

(** A registered migration as goose creates it: no links yet. *)
Definition mig (v : Z) : Migration := mkMigration v (-1) (-1) "".

Definition world (vs : list Z) (d : DB) : World DB :=
  mkWorld (mig <$> vs) d [].

(** Five migrations registered out of order; the legacy table says that
    version 2 was reached, goose has recorded nothing beyond its initial
    row.  [failing] is the same database where the forward action of
    migration 4 fails, [dirty] the same with a dirty legacy row. *)
Definition bridge : World DB := world [5; 3; 1; 2; 4] (mkDB [0] (ScanRow 2 false) []).
Definition failing : World DB := world [5; 3; 1; 2; 4] (mkDB [0] (ScanRow 2 false) [4]).
Definition dirty : World DB := world [5; 3; 1; 2; 4] (mkDB [0] (ScanRow 2 true) []).

(** A database that never had a legacy table. *)
Definition fresh : World DB := world [2; 1; 3] (mkDB [0] (ScanFail boom) []).

(** Versions 1 and 2 applied by goose, and a dirty legacy row. *)
Definition dirty_applied : World DB := world [1; 2] (mkDB [2; 1; 0] (ScanRow 2 true) []).

(** A registry with gaps in its version numbers; the legacy table stopped
    at version 3. *)
Definition gaps : World DB := world [1; 3; 5] (mkDB [0] (ScanRow 3 false) []).

(** A registry whose first migration is version 2, applied by goose. *)
Definition from_2 : World DB := world [2] (mkDB [2; 0] ScanNoRows []).

(** Version 1 applied by goose. *)
Definition at_1 : World DB := world [1; 2] (mkDB [1; 0] ScanNoRows []).

(** Four migrations, the legacy table at version 1, and the forward
    action of version [v] failing. *)
Definition failing_at (v : Z) : World DB :=
  world [1; 2; 3; 4] (mkDB [0] (ScanRow 1 false) [v]).
End Sim.

(** A database that is nothing but the version goose has recorded: a
    forward action records its version, a reverse action takes the
    recorded version down by one, and there is no legacy table. *)
Module Counter.
#[global] Instance driver : Driver Z := {|
  ExecContext := fun _ d => (d, None);
  QueryRowScan := fun _ _ => ScanFail (ErrOther "no such table: schema_migrations");
  GetDBVersion := fun d => (d, (d, None));
  Up := fun m _ => (Version m, None);
  Down := fun _ d => (d - 1, None)
|}.
End Counter.

(** A database that refuses work: it counts the statements executed so
    far and fails the third one it is given, it reports that count as the
    version goose has recorded, and every reverse action fails on it. *)
Module Broken.
Definition refused : error := ErrOther "permission denied".

#[global] Instance driver : Driver nat := {|
  ExecContext := fun _ d => if decide (d = 2%nat) then (d, Some refused) else (S d, None);
  QueryRowScan := fun _ _ => ScanNoRows;
  GetDBVersion := fun d => (d, (Z.of_nat d, None));
  Up := fun _ d => (d, None);
  Down := fun _ d => (d, Some refused)
|}.
End Broken.

(** A database, given by its recorded version and the unit type around
    it, on which reverse actions behave as goose's do on a registry applied
    in order: reversing a migration leaves the version of the migration
    before it recorded, and [0] after the first one. *)
Module Linked.
Record DB : Type := mkDB { recorded : Z }.

#[global] Instance driver : Driver DB := {|
  ExecContext := fun _ d => (d, None);
  QueryRowScan := fun _ _ => ScanNoRows;
  GetDBVersion := fun d => (d, (recorded d, None));
  Up := fun m _ => (mkDB (Version m), None);
  Down := fun m _ =>
    (mkDB (if decide (Previous m = -1) then 0 else Previous m), None)
|}.
End Linked.

(** * Properties *)

(** ** Sorting *)

Lemma Less_lt a b : Version a < Version b → Less a b = Some true.
Proof.
  intros Hlt. unfold Less. case_decide; [lia|].
  by rewrite bool_decide_eq_true_2.
Qed.

Lemma Less_gt a b : Version b < Version a → Less a b = Some false.
Proof.
  intros Hlt. unfold Less. case_decide; [lia|].
  rewrite bool_decide_eq_false_2; [done | lia].
Qed.

Lemma Less_true_inv a b : Less a b = Some true → Version a < Version b.
Proof.
  unfold Less. case_decide as Hne; [done|]. intros [= Hb].
  by apply bool_decide_eq_true_1 in Hb.
Qed.

Lemma Less_false_inv a b : Less a b = Some false → Version b < Version a.
Proof.
  unfold Less. case_decide as Hne; [done|]. intros [= Hb].
  apply bool_decide_eq_false_1 in Hb. lia.
Qed.

Lemma ascending_cons m l :
  ascending (m :: l) ↔ Forall (λ x, Version m < Version x) l ∧ ascending l.
Proof. apply StronglySorted_cons. Qed.

Lemma ascending_versions l : ascending l ↔ StronglySorted Z.lt (versions l).
Proof.
  unfold versions. induction l as [|m l IH].
  - split; constructor.
  - rewrite fmap_cons, ascending_cons, StronglySorted_cons, IH, Forall_fmap.
    reflexivity.
Qed.

Lemma ascending_NoDup l : ascending l → NoDup (versions l).
Proof.
  induction l as [|m l IH]; simpl; [constructor|].
  rewrite ascending_cons. intros [Hm Hl]. constructor; [|by apply IH].
  intros Hin. apply list_elem_of_fmap in Hin as (x & Hx & Hxl).
  rewrite Forall_forall in Hm. specialize (Hm _ Hxl). lia.
Qed.

(** Inserting into an ascending list keeps it ascending and adds the
    record, whenever [Less] does not panic. *)
Lemma insert_by_Less_spec m l r :
  ascending l → insert_by_Less m l = Some r → ascending r ∧ r ≡ₚ m :: l.
Proof.
  revert r. induction l as [|x l IH]; simpl; intros r Hasc Hr.
  - simplify_eq. split; [|done]. apply ascending_cons. split; constructor.
  - destruct (Less m x) as [[]|] eqn:HL; [| |done].
    + simplify_eq. split; [|done].
      apply Less_true_inv in HL.
      apply ascending_cons. split; [|done].
      apply ascending_cons in Hasc as [Hx _].
      constructor; [done|]. eapply Forall_impl; [exact Hx|]. simpl. lia.
    + destruct (insert_by_Less m l) as [r'|] eqn:Hins; [|done]. simplify_eq.
      apply ascending_cons in Hasc as [Hx Hl].
      destruct (IH r' Hl eq_refl) as [Hr' Hp].
      apply Less_false_inv in HL.
      split.
      * apply ascending_cons. split; [|done].
        rewrite Hp. constructor; [lia | done].
      * rewrite Hp. apply perm_swap.
Qed.

(** [Less] does not panic when the version is new. *)
Lemma insert_by_Less_is_Some m l :
  Version m ∉ versions l → is_Some (insert_by_Less m l).
Proof.
  induction l as [|x l IH]; simpl; intros Hnin; [by eexists|].
  apply not_elem_of_cons in Hnin as [Hne Hnin].
  unfold Less. case_decide; [done|].
  case_bool_decide; [by eexists|].
  destruct (IH Hnin) as [r ->]. by eexists.
Qed.

(** A record below the head of an ascending list is put in front. *)
Lemma insert_by_Less_front m l :
  ascending (m :: l) → insert_by_Less m l = Some (m :: l).
Proof.
  destruct l as [|x l]; simpl; [done|].
  intros [Hm _]%ascending_cons. apply Forall_cons in Hm as [Hlt _].
  by rewrite Less_lt.
Qed.

Lemma sort_Sort_spec ms s : sort_Sort ms = Some s → ascending s ∧ s ≡ₚ ms.
Proof.
  revert s. induction ms as [|m ms IH]; simpl; intros s Hs.
  - simplify_eq. split; [constructor | done].
  - destruct (sort_Sort ms) as [s'|]; [|done].
    destruct (IH s' eq_refl) as [Hasc Hp].
    destruct (insert_by_Less_spec _ _ _ Hasc Hs) as [Hs1 Hs2].
    split; [done|]. by rewrite Hs2, Hp.
Qed.

Lemma sort_Sort_is_Some ms : NoDup (versions ms) → is_Some (sort_Sort ms).
Proof.
  induction ms as [|m ms IH]; simpl; [by eexists|].
  intros [Hnin Hnd]%NoDup_cons.
  destruct (IH Hnd) as [s Hs]. rewrite Hs.
  apply insert_by_Less_is_Some.
  destruct (sort_Sort_spec _ _ Hs) as [_ Hp].
  unfold versions. by rewrite Hp.
Qed.

(** [Less] panics exactly when a version is repeated. *)
Lemma sort_Sort_None ms : sort_Sort ms = None ↔ ¬ NoDup (versions ms).
Proof.
  split.
  - intros Hnone Hnd. destruct (sort_Sort_is_Some _ Hnd) as [s Hs]. congruence.
  - intros Hdup. destruct (sort_Sort ms) as [s|] eqn:Hs; [|done].
    destruct Hdup. destruct (sort_Sort_spec _ _ Hs) as [Hasc Hp].
    unfold versions. rewrite <- Hp. by apply ascending_NoDup.
Qed.

(** Sorting an ascending list changes nothing. *)
Lemma sort_Sort_ascending l : ascending l → sort_Sort l = Some l.
Proof.
  induction l as [|m l IH]; simpl; [done|].
  intros Hasc. pose proof Hasc as [_ Hl]%ascending_cons.
  rewrite (IH Hl). by apply insert_by_Less_front.
Qed.

(** Two ascending lists with the same records are the same list. *)
Lemma ascending_unique l1 l2 : ascending l1 → ascending l2 → l1 ≡ₚ l2 → l1 = l2.
Proof.
  intros H1 H2 Hp.
  apply (StronglySorted_unique_strong (λ a b, Version a < Version b)); [|done..].
  intros x1 x2 _ _ ? ?. lia.
Qed.

(** The result of [sort.Sort] does not depend on the sorting algorithm:
    it is the one ascending arrangement of the records. *)
Lemma sort_Sort_unique ms s : ascending s → s ≡ₚ ms → sort_Sort ms = Some s.
Proof.
  intros Hasc Hp.
  assert (NoDup (versions ms)) as Hnd.
  { unfold versions. rewrite <- Hp. by apply ascending_NoDup. }
  destruct (sort_Sort_is_Some _ Hnd) as [s' Hs']. rewrite Hs'. f_equal.
  destruct (sort_Sort_spec _ _ Hs') as [Hasc' Hp'].
  apply ascending_unique; [done..|]. by rewrite Hp'.
Qed.

(** ** Linking *)

Lemma Migration_eta m : mkMigration (Version m) (Next m) (Previous m) (Source m) = m.
Proof. by destruct m. Qed.

Lemma link_upto_0 ms : link_upto ms 0 = ms.
Proof.
  apply list_eq. intros j. unfold link_upto. rewrite list_lookup_imap.
  destruct (ms !! j) as [m|]; [|done]. simpl. f_equal.
  unfold link_at. rewrite !bool_decide_eq_false_2 by lia. apply Migration_eta.
Qed.

Lemma lookup_link_upto ms i j :
  link_upto ms i !! j = link_at ms i j <$> ms !! j.
Proof. apply list_lookup_imap. Qed.

Ltac link_cases :=
  unfold link_at, set_Previous, set_Next; simpl;
  repeat case_bool_decide; try lia; try done.

Lemma connect_step_link_upto ms i :
  (i < length ms)%nat → connect_step (link_upto ms i) i = link_upto ms (S i).
Proof.
  intros Hi. destruct (lookup_lt_is_Some_2 ms i Hi) as [m Hm].
  unfold connect_step. rewrite lookup_link_upto, Hm. simpl.
  destruct i as [|k].
  - rewrite bool_decide_eq_false_2 by lia.
    apply list_eq. intros j. rewrite list_lookup_alter, !lookup_link_upto.
    case_decide as Hj.
    + subst j. rewrite Hm. simpl. f_equal; link_cases.
    + destruct (ms !! j) as [x|]; [|done]. simpl. f_equal; link_cases.
  - rewrite bool_decide_eq_true_2 by lia.
    replace (S k - 1)%nat with k by lia.
    assert (k < length ms)%nat as Hk by lia.
    destruct (lookup_lt_is_Some_2 ms k Hk) as [p Hp].
    rewrite lookup_link_upto, Hp. simpl.
    apply list_eq. intros j.
    destruct (decide (j = S k)) as [->|Hj1].
    + rewrite list_lookup_alter_eq, list_lookup_insert_ne by lia.
      rewrite !lookup_link_upto, Hm. simpl. f_equal.
      unfold link_at at 2. simpl. rewrite Hp. link_cases.
    + rewrite list_lookup_alter_ne by lia.
      destruct (decide (j = k)) as [->|Hj2].
      * rewrite list_lookup_insert_eq
          by (unfold link_upto; rewrite length_imap; lia).
        rewrite lookup_link_upto, Hp. simpl. f_equal.
        unfold link_at at 2. simpl. rewrite Hm. link_cases.
      * rewrite list_lookup_insert_ne by lia. rewrite !lookup_link_upto.
        destruct (ms !! j) as [x|]; [|done]. simpl. f_equal.
        link_cases.
Qed.

Lemma foldl_connect_step ms i :
  (i ≤ length ms)%nat → foldl connect_step ms (seq 0 i) = link_upto ms i.
Proof.
  induction i as [|i IH]; intros Hi.
  - simpl. by rewrite link_upto_0.
  - rewrite seq_S, foldl_app. simpl. rewrite IH by lia.
    apply connect_step_link_upto. lia.
Qed.

(** The loop leaves the closed form: every record but the last has its
    [Next], every record has its [Previous]. *)
Lemma connect_link_upto ms : connect ms = link_upto ms (length ms).
Proof. by apply foldl_connect_step. Qed.

Lemma lookup_connect ms j :
  connect ms !! j = link_at ms (length ms) j <$> ms !! j.
Proof. rewrite connect_link_upto. apply lookup_link_upto. Qed.

Lemma length_connect ms : length (connect ms) = length ms.
Proof. rewrite connect_link_upto. apply length_imap. Qed.

Lemma versions_connect ms : versions (connect ms) = versions ms.
Proof.
  apply list_eq. intros j. unfold versions.
  rewrite !list_lookup_fmap, lookup_connect.
  by destruct (ms !! j).
Qed.

Lemma ascending_connect ms : ascending (connect ms) ↔ ascending ms.
Proof. by rewrite !ascending_versions, versions_connect. Qed.

Lemma from_option_Version_connect ms k d :
  from_option Version d (connect ms !! k) = from_option Version d (ms !! k).
Proof. rewrite lookup_connect. by destruct (ms !! k). Qed.

(** Linking twice is linking once: the second run writes the values the
    first one wrote, and neither writes the [Next] of the last record. *)
Lemma connect_connect ms : connect (connect ms) = connect ms.
Proof.
  apply list_eq. intros j.
  rewrite lookup_connect, length_connect, lookup_connect.
  destruct (ms !! j) as [m|] eqn:Hm; [|done]. simpl. f_equal.
  unfold link_at at 1. simpl.
  rewrite from_option_Version_connect.
  unfold link_at. f_equal.
  - case_bool_decide; [|done]. by destruct (ms !! S j).
  - case_bool_decide; [|done]. destruct j as [|j']; [done|].
    apply from_option_Version_connect.
Qed.

(** What the linked list looks like, index by index. *)
Lemma connect_links ms i a b :
  connect ms !! i = Some a → connect ms !! S i = Some b →
  Next a = Version b ∧ Previous b = Version a.
Proof.
  rewrite !lookup_connect. intros Ha Hb.
  destruct (ms !! i) as [x|] eqn:Hx; [|done].
  destruct (ms !! S i) as [y|] eqn:Hy; [|done].
  simpl in *. simplify_eq.
  pose proof (lookup_lt_Some _ _ _ Hy) as Hlen.
  unfold link_at. simpl. rewrite Hx, Hy. simpl.
  rewrite !bool_decide_eq_true_2 by lia. done.
Qed.

Lemma connect_first ms a : connect ms !! 0%nat = Some a → Previous a = -1.
Proof.
  rewrite lookup_connect. intros Ha.
  destruct (ms !! 0%nat) as [x|] eqn:Hx; [|done].
  pose proof (lookup_lt_Some _ _ _ Hx) as Hlen.
  simpl in *. simplify_eq. unfold link_at. simpl.
  by rewrite bool_decide_eq_true_2 by lia.
Qed.

(** Linking changes the links only. *)
Lemma connect_same_records ms :
  (λ m, (Version m, Source m)) <$> connect ms = (λ m, (Version m, Source m)) <$> ms.
Proof.
  apply list_eq. intros j.
  rewrite !list_lookup_fmap, lookup_connect.
  by destruct (ms !! j).
Qed.

(** The [Next] of the last record is the one field the loop never writes. *)
Lemma connect_last ms a :
  last (connect ms) = Some a → ∃ x, last ms = Some x ∧ Next a = Next x.
Proof.
  rewrite !last_lookup, length_connect, lookup_connect.
  destruct (ms !! pred (length ms)) as [x|] eqn:Hx; [|done].
  simpl. intros [= <-]. exists x. split; [done|].
  unfold link_at. simpl. rewrite bool_decide_eq_false_2; [done|].
  pose proof (lookup_lt_Some _ _ _ Hx). lia.
Qed.

(** ** The registry: [sortAndConnectMigrations] *)

Lemma ascending_lookup l i j a b :
  ascending l → (i < j)%nat → l !! i = Some a → l !! j = Some b →
  Version a < Version b.
Proof.
  intros Hasc. revert i j. induction Hasc as [|x l Hl IH Hx]; intros i j Hij Ha Hb.
  - done.
  - destruct j as [|j]; [lia|]. simpl in Hb.
    destruct i as [|i]; simpl in Ha.
    + simplify_eq. rewrite Forall_forall in Hx. apply Hx.
      by eapply list_elem_of_lookup_2.
    + apply (IH i j); [lia | done..].
Qed.

Lemma sortAndConnectMigrations_Some ms out :
  sortAndConnectMigrations ms = Some out →
  ascending out ∧ versions out ≡ₚ versions ms ∧ length out = length ms.
Proof.
  unfold sortAndConnectMigrations.
  destruct (sort_Sort ms) as [s|] eqn:Hs; [|done]. intros [= <-].
  destruct (sort_Sort_spec _ _ Hs) as [Hasc Hp].
  split; [by apply ascending_connect|].
  rewrite versions_connect, length_connect. unfold versions. by rewrite Hp.
Qed.

Lemma sortAndConnectMigrations_is_Some ms :
  NoDup (versions ms) → is_Some (sortAndConnectMigrations ms).
Proof.
  intros Hnd. unfold sortAndConnectMigrations.
  by destruct (sort_Sort_is_Some _ Hnd) as [s ->].
Qed.

(** C5. For Migration Records with pairwise distinct versions,
    [sortAndConnectMigrations] returns the same records (versions and
    sources) in ascending order of version, where each record's [Next] is
    the version of its successor, each record's [Previous] is the version of
    its predecessor, and the [Previous] of the first record is [-1]. *)
Theorem sortAndConnectMigrations_ordering (ms : Migrations) :
  NoDup (versions ms) →
  ∃ out,
    sortAndConnectMigrations ms = Some out
    ∧ (λ m, (Version m, Source m)) <$> out ≡ₚ (λ m, (Version m, Source m)) <$> ms
    ∧ (∀ i j a b, (i < j)%nat → out !! i = Some a → out !! j = Some b →
         Version a < Version b)
    ∧ (∀ i a b, out !! i = Some a → out !! S i = Some b →
         Next a = Version b ∧ Previous b = Version a)
    ∧ (∀ a, out !! 0%nat = Some a → Previous a = -1).
Proof.
  intros Hnd. unfold sortAndConnectMigrations.
  destruct (sort_Sort_is_Some _ Hnd) as [s Hs]. rewrite Hs.
  destruct (sort_Sort_spec _ _ Hs) as [Hasc Hp].
  exists (connect s). split_and!.
  - done.
  - by rewrite connect_same_records, Hp.
  - intros i j a b. apply ascending_lookup. by apply ascending_connect.
  - apply connect_links.
  - apply connect_first.
Qed.

Lemma sortAndConnectMigrations_ordering_witness :
  NoDup (versions (Sim.mig <$> [3; 1; 2]))
  ∧ ∃ out,
      sortAndConnectMigrations (Sim.mig <$> [3; 1; 2]) = Some out
      ∧ (λ m, (Version m, Source m)) <$> out
          ≡ₚ (λ m, (Version m, Source m)) <$> (Sim.mig <$> [3; 1; 2])
      ∧ (∀ i j a b, (i < j)%nat → out !! i = Some a → out !! j = Some b →
           Version a < Version b)
      ∧ (∀ i a b, out !! i = Some a → out !! S i = Some b →
           Next a = Version b ∧ Previous b = Version a)
      ∧ (∀ a, out !! 0%nat = Some a → Previous a = -1).
Proof.
  assert (NoDup (versions (Sim.mig <$> [3; 1; 2]))) as Hnd by compute_done.
  split; [exact Hnd|].
  exact (sortAndConnectMigrations_ordering (Sim.mig <$> [3; 1; 2]) Hnd).
Defined.

(** C8. [sortAndConnectMigrations] is idempotent: for records with pairwise
    distinct versions, applying it to its own result returns that result
    unchanged, order and [Previous]/[Next] fields included. *)
Theorem sortAndConnectMigrations_idempotent (ms : Migrations) :
  NoDup (versions ms) →
  ∃ out,
    sortAndConnectMigrations ms = Some out
    ∧ sortAndConnectMigrations out = Some out.
Proof.
  intros Hnd. unfold sortAndConnectMigrations.
  destruct (sort_Sort_is_Some _ Hnd) as [s Hs]. rewrite Hs.
  destruct (sort_Sort_spec _ _ Hs) as [Hasc _].
  exists (connect s). split; [done|].
  rewrite sort_Sort_ascending by (by apply ascending_connect).
  by rewrite connect_connect.
Qed.

Lemma sortAndConnectMigrations_idempotent_witness :
  NoDup (versions (Sim.mig <$> [4; 9; 1; 6]))
  ∧ ∃ out,
      sortAndConnectMigrations (Sim.mig <$> [4; 9; 1; 6]) = Some out
      ∧ sortAndConnectMigrations out = Some out.
Proof.
  assert (NoDup (versions (Sim.mig <$> [4; 9; 1; 6]))) as Hnd by compute_done.
  split; [exact Hnd|].
  exact (sortAndConnectMigrations_idempotent (Sim.mig <$> [4; 9; 1; 6]) Hnd).
Defined.

(** ** Cutting the sorted registry at an index *)

Lemma filter_Version_length (P : Z → Prop) `{!∀ x, Decision (P x)} (l : Migrations) :
  length (filter (λ m, P (Version m)) l) = length (filter P (versions l)).
Proof.
  unfold versions. induction l as [|m l IH]; [done|].
  rewrite fmap_cons, !filter_cons. destruct (decide (P (Version m))); simpl; by rewrite IH.
Qed.


Lemma filter_none (P : Migration → Prop) `{!∀ x, Decision (P x)} (l : Migrations) :
  Forall (λ m, ¬ P m) l → filter P l = [].
Proof.
  induction 1 as [|x l Hx _ IH]; [done|]. by rewrite filter_cons_False.
Qed.

Lemma filter_all (P : Migration → Prop) `{!∀ x, Decision (P x)} (l : Migrations) :
  Forall P l → filter P l = l.
Proof.
  induction 1 as [|x l Hx _ IH]; [done|]. rewrite filter_cons_True by done.
  by f_equal.
Qed.

(** In an ascending list the records up to version [v] come first ... *)
Lemma ascending_split s v :
  ascending s →
  s = filter (λ m, Version m ≤ v) s ++ filter (λ m, v < Version m) s.
Proof.
  induction s as [|x s IH]; [done|].
  intros [Hx Hs]%ascending_cons.
  destruct (decide (Version x ≤ v)) as [Hle|Hgt].
  - rewrite filter_cons_True by done. rewrite filter_cons_False by lia.
    simpl. f_equal. by apply IH.
  - rewrite filter_cons_False by done. rewrite filter_cons_True by lia.
    assert (filter (λ m, Version m ≤ v) s = []) as ->.
    { apply filter_none.
      eapply Forall_impl; [exact Hx|]. simpl. lia. }
    simpl. f_equal.
    symmetry. apply filter_all.
    eapply Forall_impl; [exact Hx|]. simpl. lia.
Qed.

(** ... so dropping as many records as there are versions up to [v] leaves
    the records above [v]. *)
Lemma drop_ascending s v :
  ascending s →
  drop (length (filter (λ m, Version m ≤ v) s)) s = filter (λ m, v < Version m) s.
Proof.
  intros Hasc. rewrite (ascending_split s v Hasc) at 2.
  by rewrite drop_app_length.
Qed.

(** ** The engine *)

Section EngineFacts.
Context {DB : Type} `{!Driver DB}.
Implicit Types (w : World DB) (d : DB).

Lemma invoked_app w w' evs : trace w' = trace w ++ evs → invoked w w' = evs.
Proof. intros Ht. unfold invoked. by rewrite Ht, drop_app_length. Qed.

Lemma invoked_same w w' : trace w' = trace w → invoked w w' = [].
Proof. intros Ht. apply invoked_app. by rewrite app_nil_r. Qed.

(** *** The legacy table *)

(** The error of the scan never reaches the result: [err] is [nil]
    whatever the query did. *)
Lemma checkOldMigrationTableVersionIfExists_eq d :
  checkOldMigrationTableVersionIfExists d =
    (stored_version (QueryRowScan old_version_query d) 0,
     stored_dirty (QueryRowScan old_version_query d) false, None).
Proof. done. Qed.

(** *** The resolver *)

Lemma checkOldMigration_world w r w' :
  checkOldMigration w = (r, w') →
  db w' = db w ∧ trace w' = trace w.
Proof.
  unfold checkOldMigration.
  destruct (sortAndConnectMigrations (migrations w)) as [s|]; [|by intros [= <- <-]].
  rewrite checkOldMigrationTableVersionIfExists_eq. simpl.
  repeat case_match; by intros [= <- <-].
Qed.

Lemma checkOldMigration_ascending w current left_ w' :
  checkOldMigration w = (Ret (current, left_, None), w') → ascending left_.
Proof.
  unfold checkOldMigration.
  destruct (sortAndConnectMigrations (migrations w)) as [s|] eqn:Hs; [|done].
  destruct (sortAndConnectMigrations_Some _ _ Hs) as (Hasc & _ & _).
  rewrite checkOldMigrationTableVersionIfExists_eq. simpl.
  destruct (stored_dirty _ _); [done|].
  case_bool_decide.
  - unfold slice_from. case_bool_decide; [|done]. intros [= _ <- _].
    rewrite <- (take_drop (Z.to_nat (stored_version (QueryRowScan old_version_query (db w)) 0)) s) in Hasc.
    by apply StronglySorted_app_1_r in Hasc.
  - by intros [= _ <- _].
Qed.

(** *** The forward loop *)

Lemma apply_left_trace left_ w :
  ∃ attempted,
    attempted `prefix_of` left_
    ∧ trace (apply_left left_ w).2 = trace w ++ (EvUp <$> versions attempted)
    ∧ (left_ ≠ [] → attempted ≠ [])
    ∧ ((apply_left left_ w).1 = None → attempted = left_).
Proof.
  revert w. induction left_ as [|m rest IH]; intros w; simpl.
  - exists []. by rewrite app_nil_r.
  - destruct (Up m (db w)) as [d' [e|]] eqn:HUp; simpl.
    + exists [m]. split_and!; try done. by apply prefix_cons, prefix_nil.
    + destruct (IH (record w d' (EvUp (Version m)))) as (att & Hpre & Htr & _ & Hall).
      exists (m :: att). split_and!; try done.
      * by apply prefix_cons.
      * rewrite Htr. simpl. by rewrite <- app_assoc.
      * intros Hnone. f_equal. by apply Hall.
Qed.

Lemma apply_left_ok left_ w w' :
  apply_left left_ w = (None, w') →
  trace w' = trace w ++ (EvUp <$> versions left_).
Proof.
  intros Hrun. destruct (apply_left_trace left_ w) as (att & _ & Htr & _ & Hall).
  rewrite Hrun in Htr, Hall. simpl in *. by rewrite Htr, Hall.
Qed.

(** The loop stops at the first forward action that fails. *)
Lemma apply_left_first_failure l1 m l2 w w1 d e :
  apply_left l1 w = (None, w1) →
  Up m (db w1) = (d, Some e) →
  apply_left (l1 ++ m :: l2) w = (Some e, record w1 d (EvUp (Version m))).
Proof.
  revert w. induction l1 as [|x l1 IH]; intros w; simpl.
  - intros [= <-] HUp. by rewrite HUp.
  - destruct (Up x (db w)) as [d' [e'|]]; [done|]. apply IH.
Qed.

(** *** [ApplyMigrations] *)

(** Once the baseline tables exist and goose has reported a version,
    [ApplyMigrations] is the upgrade from that version. *)
Lemma ApplyMigrations_reached w d1 d2 gooseCurrent err :
  create_tables tables (db w) = (d1, None) →
  GetDBVersion d1 = (d2, (gooseCurrent, err)) →
  err = None ∨ err = Some ErrNoNextVersion →
  ApplyMigrations w = upgrade_from gooseCurrent (with_db w d2).
Proof.
  intros Hct Hv Herr. unfold ApplyMigrations. rewrite Hct, Hv.
  destruct Herr as [-> | ->]; [done|].
  by rewrite bool_decide_eq_false_2 by (intros Hne; by apply Hne).
Qed.

(** Once the resolver has answered, the comparison of the two versions
    decides whether the forward loop runs. *)
Lemma upgrade_from_resolved g w migrateCurrent left_ w3 :
  checkOldMigration w = (Ret (migrateCurrent, left_, None), w3) →
  upgrade_from g w =
    if bool_decide (g < migrateCurrent) then
      ((Ret (apply_left left_ w3).1), (apply_left left_ w3).2)
    else (Ret None, w3).
Proof.
  intros Hres. unfold upgrade_from. rewrite Hres.
  case_bool_decide; [|done].
  by destruct (apply_left left_ w3) as [[e|] w4].
Qed.
(** C2. In a run of [ApplyMigrations] that reaches the comparison (the
    baseline tables were created, goose reported a version, the resolver
    returned), the forward actions of the legacy-derived outstanding
    migrations are invoked, from the first one on, if and only if the
    version goose reports is strictly below the legacy-derived version;
    otherwise no forward action is invoked and the run succeeds. *)
Theorem ApplyMigrations_gate w d1 d2 gooseCurrent err migrateCurrent left_ w3 :
  create_tables tables (db w) = (d1, None) →
  GetDBVersion d1 = (d2, (gooseCurrent, err)) →
  err = None ∨ err = Some ErrNoNextVersion →
  checkOldMigration (with_db w d2) = (Ret (migrateCurrent, left_, None), w3) →
  ∃ attempted,
    invoked w (ApplyMigrations w).2 = EvUp <$> versions attempted
    ∧ (gooseCurrent < migrateCurrent →
         ApplyMigrations w = (Ret (apply_left left_ w3).1, (apply_left left_ w3).2)
         ∧ attempted `prefix_of` left_
         ∧ (left_ ≠ [] → attempted ≠ [])
         ∧ ((ApplyMigrations w).1 = Ret None → attempted = left_))
    ∧ (¬ gooseCurrent < migrateCurrent →
         ApplyMigrations w = (Ret None, w3) ∧ attempted = [])
    ∧ (left_ ≠ [] →
         invoked w (ApplyMigrations w).2 ≠ [] ↔ gooseCurrent < migrateCurrent).
Proof.
  intros Hct Hv Herr Hres.
  rewrite (ApplyMigrations_reached _ _ _ _ _ Hct Hv Herr).
  rewrite (upgrade_from_resolved _ _ _ _ _ Hres).
  destruct (checkOldMigration_world _ _ _ Hres) as [_ Htr]. simpl in Htr.
  case_bool_decide as Hlt.
  - destruct (apply_left_trace left_ w3) as (att & Hpre & Hatt & Hne & Hall).
    rewrite Htr in Hatt.
    exists att. simpl. rewrite (invoked_app _ _ _ Hatt). split_and!.
    + done.
    + intros _. split_and!; try done. intros [= Hnone]. by apply Hall.
    + done.
    + intros Hleft. split; [done|]. intros _ Hnil.
      apply fmap_nil_inv in Hnil. apply fmap_nil_inv in Hnil. by apply Hne.
  - exists []. simpl. rewrite (invoked_same _ _ Htr). split_and!; try done.
Qed.

(** C9. In a run of [ApplyMigrations] on a database without legacy
    history (the legacy check yields a version that is not above [0])
    where goose reports a version of at least [-1], no forward action is
    invoked, whatever the registry holds; the resolver answers with the
    sentinel [-1] and the whole sorted registry as outstanding. *)
Theorem ApplyMigrations_no_legacy_history w d1 d2 gooseCurrent err :
  create_tables tables (db w) = (d1, None) →
  GetDBVersion d1 = (d2, (gooseCurrent, err)) →
  (checkOldMigrationTableVersionIfExists d2).1.1 ≤ 0 →
  -1 ≤ gooseCurrent →
  invoked w (ApplyMigrations w).2 = []
  ∧ (∀ sorted,
       sortAndConnectMigrations (migrations w) = Some sorted →
       (checkOldMigrationTableVersionIfExists d2).1.2 = false →
       checkOldMigration (with_db w d2) =
         (Ret (-1, sorted, None), with_migrations (with_db w d2) sorted)).
Proof.
  intros Hct Hv Hold Hg.
  rewrite checkOldMigrationTableVersionIfExists_eq in *. simpl in Hold.
  assert (∀ sorted,
    sortAndConnectMigrations (migrations w) = Some sorted →
    stored_dirty (QueryRowScan old_version_query d2) false = false →
    checkOldMigration (with_db w d2) =
      (Ret (-1, sorted, None), with_migrations (with_db w d2) sorted)) as Hres.
  { intros sorted Hs Hd. unfold checkOldMigration. simpl. rewrite Hs.
    rewrite ?checkOldMigrationTableVersionIfExists_eq. simpl. rewrite Hd.
    by rewrite bool_decide_eq_false_2 by lia. }
  split; [|exact Hres].
  apply invoked_same.
  unfold ApplyMigrations. rewrite Hct, Hv.
  assert (trace (upgrade_from gooseCurrent (with_db w d2)).2 = trace w) as Hup.
  { unfold upgrade_from.
    destruct (sortAndConnectMigrations (migrations w)) as [sorted|] eqn:Hs.
    - destruct (stored_dirty (QueryRowScan old_version_query d2) false) eqn:Hd.
      + unfold checkOldMigration. simpl. rewrite Hs.
        rewrite ?checkOldMigrationTableVersionIfExists_eq. simpl. by rewrite Hd.
      + rewrite (Hres _ eq_refl eq_refl).
        by rewrite bool_decide_eq_false_2 by lia.
    - unfold checkOldMigration. simpl. by rewrite Hs. }
  destruct err as [e|]; [|done].
  by case_bool_decide.
Qed.

(** C3 (as the code has it). When the legacy row reports [dirty = true],
    [ApplyMigrations] invokes no forward action: once the baseline tables
    exist, goose has reported a version and the registry is sorted, it
    ends the process through [log.Fatal]. *)
Theorem ApplyMigrations_dirty_legacy w d1 d2 gooseCurrent err :
  create_tables tables (db w) = (d1, None) →
  GetDBVersion d1 = (d2, (gooseCurrent, err)) →
  (checkOldMigrationTableVersionIfExists d2).1.2 = true →
  invoked w (ApplyMigrations w).2 = []
  ∧ (err = None ∨ err = Some ErrNoNextVersion →
     is_Some (sortAndConnectMigrations (migrations w)) →
     (ApplyMigrations w).1 = Exit).
Proof.
  intros Hct Hv Hd.
  rewrite checkOldMigrationTableVersionIfExists_eq in Hd. simpl in Hd.
  assert (trace (upgrade_from gooseCurrent (with_db w d2)).2 = trace w
          ∧ (is_Some (sortAndConnectMigrations (migrations w)) →
             (upgrade_from gooseCurrent (with_db w d2)).1 = Exit)) as [Htr Hexit].
  { unfold upgrade_from, checkOldMigration. simpl.
    destruct (sortAndConnectMigrations (migrations w)) as [sorted|].
    - rewrite ?checkOldMigrationTableVersionIfExists_eq. simpl. by rewrite Hd.
    - split; [done|]. by intros [? ?]. }
  split.
  - apply invoked_same. unfold ApplyMigrations. rewrite Hct, Hv.
    destruct err as [e|]; [|done]. by case_bool_decide.
  - intros Herr Hs.
    rewrite (ApplyMigrations_reached _ _ _ _ _ Hct Hv Herr). by apply Hexit.
Qed.

(** C4 (as the code has it). When the forward actions of the outstanding
    migrations are run and one of them fails, [ApplyMigrations] returns
    that action's error as it is; the forward actions invoked are those of
    the migrations before the failing one and of the failing one, each
    once and in ascending order of version, and no later one is invoked. *)
Theorem ApplyMigrations_first_failure
    w d1 d2 gooseCurrent err migrateCurrent left_ w3 l1 m l2 w4 d5 e :
  create_tables tables (db w) = (d1, None) →
  GetDBVersion d1 = (d2, (gooseCurrent, err)) →
  err = None ∨ err = Some ErrNoNextVersion →
  checkOldMigration (with_db w d2) = (Ret (migrateCurrent, left_, None), w3) →
  gooseCurrent < migrateCurrent →
  left_ = l1 ++ m :: l2 →
  apply_left l1 w3 = (None, w4) →
  Up m (db w4) = (d5, Some e) →
  ApplyMigrations w = (Ret (Some e), record w4 d5 (EvUp (Version m)))
  ∧ invoked w (ApplyMigrations w).2 = EvUp <$> versions (l1 ++ [m])
  ∧ StronglySorted Z.lt (versions (l1 ++ [m]))
  ∧ NoDup (invoked w (ApplyMigrations w).2)
  ∧ (∀ x, x ∈ l2 → EvUp (Version x) ∉ invoked w (ApplyMigrations w).2).
Proof.
  intros Hct Hv Herr Hres Hlt -> Hl1 HUp.
  rewrite (ApplyMigrations_reached _ _ _ _ _ Hct Hv Herr).
  rewrite (upgrade_from_resolved _ _ _ _ _ Hres).
  rewrite bool_decide_eq_true_2 by done.
  rewrite (apply_left_first_failure _ _ _ _ _ _ _ Hl1 HUp). simpl.
  destruct (checkOldMigration_world _ _ _ Hres) as [_ Htr]. simpl in Htr.
  pose proof (apply_left_ok _ _ _ Hl1) as Htr4.
  assert (invoked w (record w4 d5 (EvUp (Version m)))
          = EvUp <$> versions (l1 ++ [m])) as Hinv.
  { apply invoked_app. simpl. rewrite Htr4, Htr.
    unfold versions. by rewrite !fmap_app, <- app_assoc. }
  pose proof (checkOldMigration_ascending _ _ _ _ Hres) as Hasc.
  rewrite (cons_middle m l1 l2), app_assoc in Hasc.
  pose proof (StronglySorted_app_1_l _ _ _ Hasc) as Hasc1.
  apply ascending_versions in Hasc1.
  rewrite Hinv. split_and!; try done.
  - apply (NoDup_fmap_2 _). by apply ascending_NoDup, ascending_versions.
  - intros x Hx Hin. apply list_elem_of_fmap in Hin as (v & [= Hv'] & Hin).
    apply list_elem_of_fmap in Hin as (y & -> & Hy).
    pose proof (StronglySorted_app_1_elem_of _ _ _ _ _ Hasc Hy Hx) as Hyx.
    simpl in Hyx. lia.
Qed.
(** Where the cut at index [v] and the cut by version agree.
    [checkOldMigration] takes [migrationsSorted[v:]].  For a registry with
    pairwise distinct versions and a clean legacy row with version [v > 0]
    such that exactly [v] of the registry's versions are at most [v]
    (versions [1 .. n] without gaps and [v <= n], for one), what it returns
    are the migrations above [v], and those up to [v] are the prefix before
    them; [ApplyMigrations] then invokes forward actions of the migrations
    above [v] only, in ascending order.  On other registries the index cut
    is not the cut by version. *)
Theorem checkOldMigration_partial_upgrade w d1 d2 gooseCurrent err v :
  create_tables tables (db w) = (d1, None) →
  GetDBVersion d1 = (d2, (gooseCurrent, err)) →
  err = None ∨ err = Some ErrNoNextVersion →
  NoDup (versions (migrations w)) →
  QueryRowScan old_version_query d2 = ScanRow v false →
  0 < v →
  length (filter (λ x, x ≤ v) (versions (migrations w))) = Z.to_nat v →
  ∃ sorted,
    sortAndConnectMigrations (migrations w) = Some sorted
    ∧ checkOldMigration (with_db w d2) =
        (Ret (v, filter (λ m, v < Version m) sorted, None),
         with_migrations (with_db w d2) sorted)
    ∧ sorted = filter (λ m, Version m ≤ v) sorted ++ filter (λ m, v < Version m) sorted
    ∧ ascending sorted
    ∧ (gooseCurrent < v →
         ∃ attempted,
           invoked w (ApplyMigrations w).2 = EvUp <$> versions attempted
           ∧ attempted `prefix_of` filter (λ m, v < Version m) sorted
           ∧ ((ApplyMigrations w).1 = Ret None →
              attempted = filter (λ m, v < Version m) sorted)).
Proof.
  intros Hct Hv Herr Hnd Hrow Hpos Hcount.
  destruct (sortAndConnectMigrations_is_Some _ Hnd) as [sorted Hs].
  destruct (sortAndConnectMigrations_Some _ _ Hs) as (Hasc & Hperm & Hlen).
  assert (length (filter (λ m, Version m ≤ v) sorted) = Z.to_nat v) as Hcut.
  { pose proof (filter_Version_length (λ x, x ≤ v) sorted) as Hfl.
    simpl in Hfl. rewrite Hfl. by rewrite Hperm. }
  assert (checkOldMigration (with_db w d2) =
            (Ret (v, filter (λ m, v < Version m) sorted, None),
             with_migrations (with_db w d2) sorted)) as Hres.
  { unfold checkOldMigration. simpl. rewrite Hs.
    rewrite ?checkOldMigrationTableVersionIfExists_eq. simpl. rewrite Hrow. simpl.
    rewrite bool_decide_eq_true_2 by done.
    unfold slice_from. rewrite bool_decide_eq_true_2.
    - by rewrite <- Hcut, drop_ascending.
    - pose proof (length_filter (λ m, Version m ≤ v) sorted). lia. }
  exists sorted. split_and!; try done.
  - by apply ascending_split.
  - intros Hlt.
    rewrite (ApplyMigrations_reached _ _ _ _ _ Hct Hv Herr).
    rewrite (upgrade_from_resolved _ _ _ _ _ Hres).
    rewrite bool_decide_eq_true_2 by done. simpl.
    destruct (apply_left_trace (filter (λ m, v < Version m) sorted)
                (with_migrations (with_db w d2) sorted))
      as (att & Hpre & Hatt & _ & Hall).
    exists att. split_and!; try done.
    + by apply invoked_app.
    + intros [= Hnone]. by apply Hall.
Qed.

(** C6 (what the code does).  An error of the query on the legacy table,
    other than the no-rows condition, is not returned to the caller: the
    result of [Scan] is dropped, so the error result is [nil]; when the
    query itself failed the named results keep their zero values and the
    caller gets version [0], not dirty, no error. *)
Theorem legacy_query_error_not_propagated d e :
  scan_error (QueryRowScan old_version_query d) = Some e →
  e ≠ ErrNoRows →
  (checkOldMigrationTableVersionIfExists d).2 = None
  ∧ (QueryRowScan old_version_query d = ScanFail e →
     checkOldMigrationTableVersionIfExists d = (0, false, None)).
Proof.
  intros _ _. rewrite checkOldMigrationTableVersionIfExists_eq.
  split; [done|]. by intros ->.
Qed.

(** *** [DownAll] *)

Lemma Current_Some ms v current :
  Current ms v = Some current → Version current = v ∧ current ∈ ms.
Proof.
  induction ms as [|m ms IH]; simpl; [done|].
  case_decide as Hm.
  - intros [= <-]. split; [done | apply list_elem_of_here].
  - intros [Hv Hin]%IH. split; [done | by apply list_elem_of_further].
Qed.

(** The loop adds reverse actions only, and only of versions above [1]. *)
Lemma DownAll_loop_trace fuel w :
  ∃ vs,
    trace (DownAll_loop fuel w).2 = trace w ++ (EvDown <$> vs)
    ∧ Forall (λ v, 1 < v) vs.
Proof.
  revert w. induction fuel as [|fuel IH]; intros w; simpl.
  - exists []. by rewrite app_nil_r.
  - destruct (GetDBVersion (db w)) as [d1 [currentVersion [e|]]]; simpl.
    { exists []. by rewrite app_nil_r. }
    destruct (Current (migrations w) currentVersion) as [current|]; simpl.
    2:{ exists []. by rewrite app_nil_r. }
    case_bool_decide as Hle; simpl.
    { exists []. by rewrite app_nil_r. }
    destruct (Down current d1) as [d2 [e|]]; simpl.
    + exists [Version current]. split; [done|]. constructor; [lia | done].
    + destruct (IH (record (with_db w d1) d2 (EvDown (Version current))))
        as (vs & Htr & Hvs).
      exists (Version current :: vs). split.
      * rewrite Htr. simpl. by rewrite <- app_assoc.
      * constructor; [lia | done].
Qed.

(** C10 (as the code has it).  [DownAll] never invokes the reverse action
    of a migration whose version is at most [1]: every reverse action it
    invokes, however long it runs, belongs to a version above [1], and
    when the record resolved for the current version has a version of at
    most [1] the loop returns success at once, without calling [Down]. *)
Theorem DownAll_spares_version_1 fuel w :
  (∃ vs, invoked w (DownAll fuel w).2 = EvDown <$> vs ∧ Forall (λ v, 1 < v) vs)
  ∧ (∀ d1 currentVersion current,
       GetDBVersion (db w) = (d1, (currentVersion, None)) →
       Current (migrations w) currentVersion = Some current →
       Version current ≤ 1 →
       DownAll_loop (S fuel) w = (Some (Ret None), with_db w d1)).
Proof.
  split.
  - unfold DownAll.
    destruct (sortAndConnectMigrations (migrations w)) as [sorted|].
    + destruct (DownAll_loop_trace fuel (with_migrations w sorted)) as (vs & Htr & Hvs).
      exists vs. split; [|done]. by apply invoked_app.
    + exists []. split; [|done]. by apply invoked_same.
  - intros d1 currentVersion current Hv Hcur Hle. simpl.
    rewrite Hv. simpl. rewrite Hcur. by rewrite bool_decide_eq_true_2.
Qed.

(** The loop ends within [n + 1] iterations when the recorded version is
    at most [n] and every successful reverse action lowers it. *)
Lemma DownAll_loop_terminates :
  (∀ d d1 v m d2 d3 v',
     GetDBVersion d = (d1, (v, None)) → Version m = v → 1 < v →
     Down m d1 = (d2, None) →
     GetDBVersion d2 = (d3, (v', None)) → v' < v) →
  ∀ n w,
    (∀ d1 v, GetDBVersion (db w) = (d1, (v, None)) → v ≤ Z.of_nat n) →
    ∃ r w', ∀ fuel, (S n ≤ fuel)%nat → DownAll_loop fuel w = (Some r, w').
Proof.
  intros Hdec n. induction n as [|n IH]; intros w Hbound.
  - destruct (GetDBVersion (db w)) as [d1 [v [e|]]] eqn:Hv.
    + exists (Ret (Some e)), (with_db w d1). intros [|fuel] Hf; [lia|].
      simpl. by rewrite Hv.
    + specialize (Hbound _ _ eq_refl).
      destruct (Current (migrations w) v) as [current|] eqn:Hcur.
      * exists (Ret None), (with_db w d1). intros [|fuel] Hf; [lia|].
        simpl. rewrite Hv. simpl. rewrite Hcur.
        destruct (Current_Some _ _ _ Hcur) as [Hcv _].
        rewrite bool_decide_eq_true_2 by lia. done.
      * exists (Ret None), (with_db w d1). intros [|fuel] Hf; [lia|].
        simpl. rewrite Hv. simpl. by rewrite Hcur.
  - destruct (GetDBVersion (db w)) as [d1 [v [e|]]] eqn:Hv.
    + exists (Ret (Some e)), (with_db w d1). intros [|fuel] Hf; [lia|].
      simpl. by rewrite Hv.
    + specialize (Hbound _ _ eq_refl).
      destruct (Current (migrations w) v) as [current|] eqn:Hcur.
      2:{ exists (Ret None), (with_db w d1). intros [|fuel] Hf; [lia|].
          simpl. rewrite Hv. simpl. by rewrite Hcur. }
      destruct (Current_Some _ _ _ Hcur) as [Hcv _].
      destruct (decide (Version current ≤ 1)) as [Hle|Hgt].
      { exists (Ret None), (with_db w d1). intros [|fuel] Hf; [lia|].
        simpl. rewrite Hv. simpl. rewrite Hcur.
        by rewrite bool_decide_eq_true_2. }
      destruct (Down current d1) as [d2 [e|]] eqn:Hdown.
      { exists (Ret (Some e)), (record (with_db w d1) d2 (EvDown (Version current))).
        intros [|fuel] Hf; [lia|].
        simpl. rewrite Hv. simpl. rewrite Hcur.
        rewrite bool_decide_eq_false_2 by done. by rewrite Hdown. }
      destruct (IH (record (with_db w d1) d2 (EvDown (Version current))))
        as (r & w' & Hrun).
      { simpl. intros d3 v' Hv'.
        pose proof (Hdec _ _ _ _ _ _ _ Hv Hcv ltac:(lia) Hdown Hv'). lia. }
      exists r, w'. intros [|fuel] Hf; [lia|].
      simpl. rewrite Hv. simpl. rewrite Hcur.
      rewrite bool_decide_eq_false_2 by done. rewrite Hdown.
      apply Hrun. lia.
Qed.

(** C7.  When every successful reverse action strictly lowers the
    version goose records, [DownAll] terminates: the loop only goes on
    while that version is above [1], so from some number of iterations on
    it has returned, with the same result whatever the bound. *)
Theorem DownAll_terminates w :
  (∀ d d1 v m d2 d3 v',
     GetDBVersion d = (d1, (v, None)) → Version m = v → 1 < v →
     Down m d1 = (d2, None) →
     GetDBVersion d2 = (d3, (v', None)) → v' < v) →
  ∃ n r w', ∀ fuel, (n ≤ fuel)%nat → DownAll fuel w = (Some r, w').
Proof.
  intros Hdec. unfold DownAll.
  destruct (sortAndConnectMigrations (migrations w)) as [sorted|].
  - destruct (GetDBVersion (db w)) as [d1 [v e]] eqn:Hv.
    destruct (DownAll_loop_terminates Hdec (Z.to_nat v) (with_migrations w sorted))
      as (r & w' & Hrun).
    { simpl. intros d1' v' Hv'. rewrite Hv in Hv'. simplify_eq. lia. }
    by exists (S (Z.to_nat v)), r, w'.
  - by exists 0%nat, Panic, w.
Qed.
End EngineFacts.

(** ** Concrete runs *)

Example sortAndConnectMigrations_example :
  sortAndConnectMigrations (Sim.mig <$> [3; 1; 5; 2]) =
    Some [mkMigration 1 2 (-1) ""; mkMigration 2 3 1 "";
          mkMigration 3 5 2 ""; mkMigration 5 (-1) 3 ""].
Proof. reflexivity. Qed.

Example sortAndConnectMigrations_duplicate :
  sortAndConnectMigrations (Sim.mig <$> [3; 1; 3; 2]) = None.
Proof. reflexivity. Qed.

(** The legacy table at version 2, five migrations: 3, 4 and 5 are run. *)
Example ApplyMigrations_bridge :
  (ApplyMigrations Sim.bridge).1 = Ret None
  ∧ invoked Sim.bridge (ApplyMigrations Sim.bridge).2 = [EvUp 3; EvUp 4; EvUp 5].
Proof. by vm_compute. Qed.

(** A legacy version beyond the registry: the slice expression panics. *)
Example checkOldMigration_out_of_range :
  (checkOldMigration (Sim.world [1; 2] (Sim.mkDB [0] (ScanRow 3 false) []))).1 = Panic.
Proof. reflexivity. Qed.

(** No legacy table and a registry never applied: nothing is run. *)
Example ApplyMigrations_fresh :
  (ApplyMigrations Sim.fresh).1 = Ret None
  ∧ invoked Sim.fresh (ApplyMigrations Sim.fresh).2 = [].
Proof. by vm_compute. Qed.

Lemma checkOldMigration_partial_upgrade_witness :
  ∃ sorted,
    sortAndConnectMigrations (migrations Sim.bridge) = Some sorted
    ∧ checkOldMigration (with_db Sim.bridge (db Sim.bridge)) =
        (Ret (2, filter (λ m, 2 < Version m) sorted, None),
         with_migrations (with_db Sim.bridge (db Sim.bridge)) sorted)
    ∧ sorted = filter (λ m, Version m ≤ 2) sorted ++ filter (λ m, 2 < Version m) sorted
    ∧ ascending sorted
    ∧ (0 < 2 →
         ∃ attempted,
           invoked Sim.bridge (ApplyMigrations Sim.bridge).2 = EvUp <$> versions attempted
           ∧ attempted `prefix_of` filter (λ m, 2 < Version m) sorted
           ∧ ((ApplyMigrations Sim.bridge).1 = Ret None →
              attempted = filter (λ m, 2 < Version m) sorted)).
Proof.
  apply (checkOldMigration_partial_upgrade
           Sim.bridge (db Sim.bridge) (db Sim.bridge) 0 None 2).
  - reflexivity.
  - reflexivity.
  - by left.
  - compute_done.
  - reflexivity.
  - lia.
  - reflexivity.
Defined.

(** On a registry with gaps the index cut is not the set of migrations
    above the legacy version: with versions 1, 3, 5 and a legacy version of
    3, the cut at index 3 leaves nothing outstanding although migration 5 is
    above 3. *)
Lemma checkOldMigration_gap_counterexample :
  ¬ ∃ left_ w',
      checkOldMigration Sim.gaps = (Ret (3, left_, None), w')
      ∧ ∀ m, m ∈ migrations w' → (m ∈ left_ ↔ 3 < Version m).
Proof.
  intros (left_ & w' & Hres & Hall).
  vm_compute in Hres. injection Hres as <- <-.
  destruct (Hall (mkMigration 5 (-1) 3 "")) as [_ Hin].
  - simpl. do 2 apply list_elem_of_further. apply list_elem_of_here.
  - simpl in Hin. by apply not_elem_of_nil in Hin.
Qed.

Lemma ApplyMigrations_gate_witness :
  ∃ left_ w3,
    checkOldMigration (with_db Sim.bridge (db Sim.bridge)) = (Ret (2, left_, None), w3)
    ∧ versions left_ = [3; 4; 5]
    ∧ ∃ attempted,
        invoked Sim.bridge (ApplyMigrations Sim.bridge).2 = EvUp <$> versions attempted
        ∧ (0 < 2 →
             ApplyMigrations Sim.bridge = (Ret (apply_left left_ w3).1, (apply_left left_ w3).2)
             ∧ attempted `prefix_of` left_
             ∧ (left_ ≠ [] → attempted ≠ [])
             ∧ ((ApplyMigrations Sim.bridge).1 = Ret None → attempted = left_))
        ∧ (¬ 0 < 2 → ApplyMigrations Sim.bridge = (Ret None, w3) ∧ attempted = [])
        ∧ (left_ ≠ [] → invoked Sim.bridge (ApplyMigrations Sim.bridge).2 ≠ [] ↔ 0 < 2).
Proof.
  eexists _, _. split; [reflexivity|]. split; [reflexivity|].
  apply (ApplyMigrations_gate Sim.bridge (db Sim.bridge) (db Sim.bridge) 0 None 2).
  - reflexivity.
  - reflexivity.
  - by left.
  - reflexivity.
Defined.

Lemma ApplyMigrations_dirty_legacy_witness :
  (checkOldMigrationTableVersionIfExists (db Sim.dirty)).1.2 = true
  ∧ invoked Sim.dirty (ApplyMigrations Sim.dirty).2 = []
  ∧ (ApplyMigrations Sim.dirty).1 = Exit.
Proof.
  destruct (ApplyMigrations_dirty_legacy Sim.dirty (db Sim.dirty) (db Sim.dirty) 0 None)
    as [Hnone Hexit].
  - reflexivity.
  - reflexivity.
  - reflexivity.
  - split; [reflexivity|]. split; [exact Hnone|].
    apply Hexit; [by left | by eexists].
Defined.

(** C3 as stated fails for [DownAll]: it never looks at the
    legacy row, and reverses migration 2 although that row is dirty. *)
Lemma DownAll_dirty_counterexample :
  (checkOldMigrationTableVersionIfExists (db Sim.dirty_applied)).1.2 = true
  ∧ (DownAll 3 Sim.dirty_applied).1 = Some (Ret None)
  ∧ invoked Sim.dirty_applied (DownAll 3 Sim.dirty_applied).2 = [EvDown 2].
Proof. by vm_compute. Qed.

Lemma ApplyMigrations_first_failure_witness :
  ∃ w',
    ApplyMigrations Sim.failing = (Ret (Some Sim.boom), w')
    ∧ invoked Sim.failing (ApplyMigrations Sim.failing).2 = [EvUp 3; EvUp 4]
    ∧ EvUp 5 ∉ invoked Sim.failing (ApplyMigrations Sim.failing).2.
Proof.
  destruct (ApplyMigrations_first_failure
              Sim.failing (db Sim.failing) (db Sim.failing) 0 None 2
              [mkMigration 3 4 2 ""; mkMigration 4 5 3 ""; mkMigration 5 (-1) 4 ""]
              (with_migrations Sim.failing
                 (default [] (sortAndConnectMigrations (migrations Sim.failing))))
              [mkMigration 3 4 2 ""] (mkMigration 4 5 3 "") [mkMigration 5 (-1) 4 ""]
              (record (with_migrations Sim.failing
                         (default [] (sortAndConnectMigrations (migrations Sim.failing))))
                      (Sim.mkDB [3; 0] (ScanRow 2 false) [4]) (EvUp 3))
              (Sim.mkDB [3; 0] (ScanRow 2 false) [4]) Sim.boom)
    as (Hrun & Hinv & _ & _ & Hlater).
  - reflexivity.
  - reflexivity.
  - by left.
  - reflexivity.
  - lia.
  - reflexivity.
  - reflexivity.
  - reflexivity.
  - eexists. split; [exact Hrun|]. split; [exact Hinv|].
    apply (Hlater (mkMigration 5 (-1) 4 "")). apply list_elem_of_here.
Defined.

(** C4 as stated fails in its last part: the error returned
    is the one the forward action produced, and two runs that fail at
    different versions can return the same error, so the error does not
    determine the version. *)
Lemma ApplyMigrations_error_counterexample :
  ¬ ∃ version_of : error → Z,
      ∀ failing_version e w' v,
        ApplyMigrations (Sim.failing_at failing_version) = (Ret (Some e), w') →
        last (trace w') = Some (EvUp v) →
        version_of e = v.
Proof.
  intros [version_of Hid].
  pose proof (Hid 3 Sim.boom _ 3 eq_refl eq_refl) as H3.
  pose proof (Hid 4 Sim.boom _ 4 eq_refl eq_refl) as H4.
  congruence.
Qed.

Lemma legacy_query_error_not_propagated_witness :
  scan_error (QueryRowScan old_version_query (db Sim.fresh)) = Some Sim.boom
  ∧ Sim.boom ≠ ErrNoRows
  ∧ (checkOldMigrationTableVersionIfExists (db Sim.fresh)).2 = None
  ∧ checkOldMigrationTableVersionIfExists (db Sim.fresh) = (0, false, None).
Proof.
  assert (scan_error (QueryRowScan old_version_query (db Sim.fresh)) = Some Sim.boom)
    as Hscan by reflexivity.
  assert (Sim.boom ≠ ErrNoRows) as Hne by discriminate.
  destruct (legacy_query_error_not_propagated (db Sim.fresh) Sim.boom Hscan Hne)
    as [Hnil Hzero].
  split; [exact Hscan|]. split; [exact Hne|]. split; [exact Hnil|].
  apply Hzero. reflexivity.
Defined.

Lemma DownAll_terminates_witness :
  ∃ n r w', ∀ fuel, (n ≤ fuel)%nat →
    DownAll fuel (mkWorld (Sim.mig <$> [3; 1; 2]) (3 : Z) []) = (Some r, w').
Proof.
  apply (DownAll_terminates (mkWorld (Sim.mig <$> [3; 1; 2]) (3 : Z) [])).
  simpl. intros d d1 v m d2 d3 v' Hv _ _ Hdown Hv'. simplify_eq. lia.
Defined.

Lemma ApplyMigrations_no_legacy_history_witness :
  (checkOldMigrationTableVersionIfExists (db Sim.fresh)).1.1 ≤ 0
  ∧ -1 ≤ 0
  ∧ invoked Sim.fresh (ApplyMigrations Sim.fresh).2 = []
  ∧ (∀ sorted,
       sortAndConnectMigrations (migrations Sim.fresh) = Some sorted →
       (checkOldMigrationTableVersionIfExists (db Sim.fresh)).1.2 = false →
       checkOldMigration (with_db Sim.fresh (db Sim.fresh)) =
         (Ret (-1, sorted, None), with_migrations (with_db Sim.fresh (db Sim.fresh)) sorted)).
Proof.
  assert ((checkOldMigrationTableVersionIfExists (db Sim.fresh)).1.1 ≤ 0) as Hold
    by (simpl; lia).
  assert (-1 ≤ 0) as Hg by lia.
  split; [exact Hold|]. split; [exact Hg|].
  exact (ApplyMigrations_no_legacy_history
           Sim.fresh (db Sim.fresh) (db Sim.fresh) 0 None eq_refl eq_refl Hold Hg).
Defined.

Lemma DownAll_spares_version_1_witness :
  (∃ vs, invoked Sim.at_1 (DownAll 0 Sim.at_1).2 = EvDown <$> vs ∧ Forall (λ v, 1 < v) vs)
  ∧ DownAll_loop 1 Sim.at_1 = (Some (Ret None), with_db Sim.at_1 (db Sim.at_1)).
Proof.
  destruct (DownAll_spares_version_1 0 Sim.at_1) as [Htrace Hstop].
  split; [exact Htrace|].
  apply (Hstop (db Sim.at_1) 1 (Sim.mig 1)).
  - reflexivity.
  - reflexivity.
  - simpl. lia.
Defined.

(** C10 as stated fails in its last part: what version is
    recorded after a reverse action is the dialect layer's doing.  With a
    registry that starts at version 2, [DownAll] reverses migration 2 and
    the recorded version goes from 2 to 0. *)
Lemma DownAll_below_1_counterexample :
  (GetDBVersion (db Sim.from_2)).2.1 = 2
  ∧ (DownAll 3 Sim.from_2).1 = Some (Ret None)
  ∧ invoked Sim.from_2 (DownAll 3 Sim.from_2).2 = [EvDown 2]
  ∧ (GetDBVersion (db (DownAll 3 Sim.from_2).2)).2.1 = 0
  ∧ 0 < 1.
Proof. by vm_compute. Qed.


(** * Further properties of the code *)

(** ** The registry *)

(** X1.  [sortAndConnectMigrations] panics exactly when two records of the
    registry have the same version. *)
Theorem sortAndConnectMigrations_panics_iff (ms : Migrations) :
  sortAndConnectMigrations ms = None ↔ ¬ NoDup (versions ms).
Proof.
  unfold sortAndConnectMigrations. rewrite <- sort_Sort_None.
  by destruct (sort_Sort ms).
Qed.

(** The order in which the records were registered does not matter. *)
Lemma sort_Sort_Permutation ms1 ms2 : ms1 ≡ₚ ms2 → sort_Sort ms1 = sort_Sort ms2.
Proof.
  intros Hp. destruct (sort_Sort ms1) as [s|] eqn:Hs.
  - destruct (sort_Sort_spec _ _ Hs) as [Hasc Hps].
    symmetry. apply sort_Sort_unique; [done|]. by rewrite Hps.
  - symmetry. apply sort_Sort_None. apply sort_Sort_None in Hs.
    unfold versions in *. by rewrite <- Hp.
Qed.

(** X2.  The result of [sortAndConnectMigrations] does not depend on the
    order in which the migrations were registered: two registries with the
    same records give the same sorted and linked list, or both panic. *)
Theorem sortAndConnectMigrations_order_independent (ms1 ms2 : Migrations) :
  ms1 ≡ₚ ms2 → sortAndConnectMigrations ms1 = sortAndConnectMigrations ms2.
Proof.
  intros Hp. unfold sortAndConnectMigrations.
  by rewrite (sort_Sort_Permutation _ _ Hp).
Qed.

Lemma sortAndConnectMigrations_order_independent_witness :
  Sim.mig <$> [3; 1; 2] ≡ₚ Sim.mig <$> [2; 3; 1]
  ∧ sortAndConnectMigrations (Sim.mig <$> [3; 1; 2])
    = sortAndConnectMigrations (Sim.mig <$> [2; 3; 1]).
Proof.
  assert (Sim.mig <$> [3; 1; 2] ≡ₚ Sim.mig <$> [2; 3; 1]) as Hp.
  { symmetry. exact (Permutation_cons_append (Sim.mig <$> [3; 1]) (Sim.mig 2)). }
  split; [exact Hp|].
  exact (sortAndConnectMigrations_order_independent _ _ Hp).
Defined.

Lemma ascending_last_max l a :
  ascending l → last l = Some a → Forall (λ x, Version x ≤ Version a) l.
Proof.
  induction l as [|x l IH]; [done|].
  intros [Hx Hl]%ascending_cons Hlast.
  destruct l as [|y l'].
  - simpl in Hlast. simplify_eq. constructor; [lia | done].
  - rewrite last_cons_cons in Hlast. specialize (IH Hl Hlast).
    constructor; [|done].
    rewrite Forall_forall in Hx.
    assert (a ∈ y :: l') as Hin.
    { rewrite last_lookup in Hlast. by eapply list_elem_of_lookup_2. }
    specialize (Hx _ Hin). lia.
Qed.

(** X3.  The linking loop never writes the [Next] of the last record: in
    the result of [sortAndConnectMigrations] the record with the highest
    version still has the [Next] it was registered with. *)
Theorem sortAndConnectMigrations_last_Next (ms out : Migrations) (a : Migration) :
  sortAndConnectMigrations ms = Some out →
  last out = Some a →
  (∀ y, y ∈ ms → Version y ≤ Version a)
  ∧ ∃ x, x ∈ ms ∧ Version x = Version a ∧ Source x = Source a ∧ Next a = Next x.
Proof.
  unfold sortAndConnectMigrations.
  destruct (sort_Sort ms) as [s|] eqn:Hs; [|done]. intros [= <-] Hlast.
  destruct (sort_Sort_spec _ _ Hs) as [Hasc Hp].
  pose proof Hlast as Hlast'.
  rewrite last_lookup, length_connect, lookup_connect in Hlast'.
  destruct (s !! pred (length s)) as [x|] eqn:Hx; [|done].
  simpl in Hlast'. injection Hlast' as <-.
  assert (last s = Some x) as Hls by by rewrite last_lookup.
  split.
  - intros y Hy. rewrite <- Hp in Hy.
    pose proof (ascending_last_max _ _ Hasc Hls) as Hmax.
    rewrite Forall_forall in Hmax. by apply Hmax.
  - exists x. split_and!; try done.
    + rewrite <- Hp. by eapply list_elem_of_lookup_2.
    + destruct (connect_last _ _ Hlast) as (x' & Hx' & Hn). by simplify_eq.
Qed.

Lemma sortAndConnectMigrations_last_Next_witness :
  ∃ x, x ∈ [mkMigration 2 7 0 "b"; mkMigration 9 42 0 "z"; mkMigration 4 8 0 "c"]
    ∧ Version x = 9 ∧ Source x = "z"%string ∧ 42 = Next x.
Proof.
  exact (proj2 (sortAndConnectMigrations_last_Next
    [mkMigration 2 7 0 "b"; mkMigration 9 42 0 "z"; mkMigration 4 8 0 "c"]
    [mkMigration 2 4 (-1) "b"; mkMigration 4 9 2 "c"; mkMigration 9 42 4 "z"]
    (mkMigration 9 42 4 "z") eq_refl eq_refl)).
Defined.

Lemma sortAndConnectMigrations_panics_iff_witness :
  ¬ NoDup (versions (Sim.mig <$> [3; 1; 3]))
  ∧ sortAndConnectMigrations (Sim.mig <$> [3; 1; 3]) = None.
Proof.
  assert (¬ NoDup (versions (Sim.mig <$> [3; 1; 3]))) as Hdup by compute_done.
  split; [exact Hdup|].
  exact (proj2 (sortAndConnectMigrations_panics_iff (Sim.mig <$> [3; 1; 3])) Hdup).
Defined.




(** ** The engine, continued *)

Section EngineMore.
Context {DB : Type} `{!Driver DB}.
Implicit Types (w : World DB) (d : DB).

(** *** The resolver *)

(** Everything [checkOldMigration] can return. *)
Lemma checkOldMigration_Ret w current left_ err w' :
  checkOldMigration w = (Ret (current, left_, err), w') →
  ∃ sorted,
    sortAndConnectMigrations (migrations w) = Some sorted
    ∧ w' = with_migrations w sorted
    ∧ err = None
    ∧ ((current = -1 ∧ left_ = sorted)
       ∨ (0 < current ≤ Z.of_nat (length sorted)
          ∧ left_ = drop (Z.to_nat current) sorted)).
Proof.
  unfold checkOldMigration.
  destruct (sortAndConnectMigrations (migrations w)) as [sorted|]; [|done].
  rewrite checkOldMigrationTableVersionIfExists_eq. simpl.
  destruct (stored_dirty _ _); [done|].
  case_bool_decide as Hpos.
  - unfold slice_from. case_bool_decide as Hrange; [|done].
    intros [= <- <- <- <-]. exists sorted. split_and!; try done.
    right. split; [lia | done].
  - intros [= <- <- <- <-]. exists sorted. split_and!; try done. by left.
Qed.

(** X4.  Whatever the database holds, [checkOldMigration] returns no error;
    when it returns, the registry is left sorted and linked, and what it
    returns is either [-1] with the whole sorted registry or a version
    [v] with [0 < v <= len] and the sorted registry without its first [v]
    records.  The outstanding migrations are always a suffix of the sorted
    registry. *)
Theorem checkOldMigration_returns w current left_ err w' :
  checkOldMigration w = (Ret (current, left_, err), w') →
  err = None
  ∧ Some (migrations w') = sortAndConnectMigrations (migrations w)
  ∧ db w' = db w
  ∧ left_ `suffix_of` migrations w'
  ∧ ascending (migrations w')
  ∧ ((current = -1 ∧ left_ = migrations w')
     ∨ (0 < current ≤ Z.of_nat (length (migrations w))
        ∧ Z.of_nat (length left_) = Z.of_nat (length (migrations w)) - current)).
Proof.
  intros Hres.
  destruct (checkOldMigration_Ret _ _ _ _ _ Hres) as (sorted & Hs & -> & -> & Hcase).
  destruct (sortAndConnectMigrations_Some _ _ Hs) as (Hasc & _ & Hlen).
  simpl. split_and!; try done.
  - destruct Hcase as [[_ ->] | [_ ->]]; [done | apply suffix_drop].
  - destruct Hcase as [[-> ->] | [Hrange ->]]; [by left | right].
    rewrite <- Hlen. split; [done|]. rewrite length_drop. lia.
Qed.

(** *** [ApplyMigrations] *)

Lemma create_tables_first_failure l1 v l2 d d1 d' e :
  create_tables l1 d = (d1, None) →
  ExecContext v d1 = (d', Some e) →
  create_tables (l1 ++ v :: l2) d = (d', Some e).
Proof.
  revert d. induction l1 as [|x l1 IH]; intros d; simpl.
  - intros [= <-] Hv. by rewrite Hv.
  - destruct (ExecContext x d) as [dx [ex|]]; [done|]. apply IH.
Qed.

(** X5.  When the statement creating one of the baseline tables fails,
    [ApplyMigrations] returns that error at once: the statements after it
    are not executed, the registry is not touched and no migration action is
    invoked. *)
Theorem ApplyMigrations_bootstrap_failure w l1 v l2 d1 d' e :
  tables = l1 ++ v :: l2 →
  create_tables l1 (db w) = (d1, None) →
  ExecContext v d1 = (d', Some e) →
  ApplyMigrations w = (Ret (Some e), with_db w d')
  ∧ invoked w (ApplyMigrations w).2 = [].
Proof.
  intros Ht Hl1 Hv. unfold ApplyMigrations. rewrite Ht.
  rewrite (create_tables_first_failure _ _ _ _ _ _ _ Hl1 Hv).
  split; [done|]. by apply invoked_same.
Qed.

Lemma apply_left_migrations left_ w r w' :
  apply_left left_ w = (r, w') → migrations w' = migrations w.
Proof.
  revert w. induction left_ as [|x l IH]; intros w; simpl; [by intros [= <- <-]|].
  destruct (Up x (db w)) as [dx [ex|]]; [by intros [= <- <-]|].
  intros Hl. by rewrite (IH _ Hl).
Qed.

Lemma apply_left_error left_ w e w' :
  apply_left left_ w = (Some e, w') →
  ∃ m d d', m ∈ left_ ∧ Up m d = (d', Some e)
            ∧ last (trace w') = Some (EvUp (Version m)).
Proof.
  revert w. induction left_ as [|m rest IH]; intros w; simpl; [done|].
  destruct (Up m (db w)) as [d' [e'|]] eqn:HUp.
  - intros [= <- <-]. exists m, (db w), d'. split_and!; try done.
    + apply list_elem_of_here.
    + simpl. by rewrite last_snoc.
  - intros Hrest. destruct (IH _ Hrest) as (m' & d0 & d0' & Hin & Hup & Hlast).
    exists m', d0, d0'. split_and!; try done. by apply list_elem_of_further.
Qed.

(** X6.  Every error [ApplyMigrations] returns comes from one of three
    places: a baseline statement that failed, goose's version query (and
    then it is not [ErrNoNextVersion]), or the forward action invoked last.
    The legacy version check contributes none. *)
Theorem ApplyMigrations_error_sources w e w' :
  ApplyMigrations w = (Ret (Some e), w') →
  (∃ d', create_tables tables (db w) = (d', Some e) ∧ invoked w w' = [])
  ∨ (∃ d1 d2 v, create_tables tables (db w) = (d1, None)
       ∧ GetDBVersion d1 = (d2, (v, Some e)) ∧ e ≠ ErrNoNextVersion
       ∧ invoked w w' = [])
  ∨ (∃ m d d', m ∈ migrations w' ∧ Up m d = (d', Some e)
       ∧ last (trace w') = Some (EvUp (Version m))).
Proof.
  unfold ApplyMigrations.
  destruct (create_tables tables (db w)) as [d1 [e1|]] eqn:Hct.
  { intros [= <- <-]. left. exists d1. split; [done|]. by apply invoked_same. }
  destruct (GetDBVersion d1) as [d2 [g err]] eqn:Hv.
  assert (upgrade_from g (with_db w d2) = (Ret (Some e), w') →
          ∃ m d d', m ∈ migrations w' ∧ Up m d = (d', Some e)
            ∧ last (trace w') = Some (EvUp (Version m))) as Hup.
  { unfold upgrade_from.
    destruct (checkOldMigration (with_db w d2)) as [[[[mc left_] err']| |] w3] eqn:Hres;
      [|done..].
    destruct (checkOldMigration_Ret _ _ _ _ _ Hres) as (sorted & Hs & -> & -> & Hcase).
    case_bool_decide; [|done].
    destruct (apply_left _ _) as [[e'|] w4] eqn:Hrun; [|done].
    intros [= <- <-].
    destruct (apply_left_error _ _ _ _ Hrun) as (m & d & d' & Hin & HUp & Hlast).
    exists m, d, d'. split_and!; try done.
    rewrite (apply_left_migrations _ _ _ _ Hrun). simpl.
    destruct Hcase as [[_ ->] | [_ ->]]; [done|].
    by eapply subseteq_drop. }
  destruct err as [e0|]; [|by right; right; apply Hup].
  case_bool_decide as Hne.
  - intros [= <- <-]. right. left. exists d1, d2, g. split_and!; try done.
    by apply invoked_same.
  - intros Hrun. right. right. by apply Hup.
Qed.
Lemma ascending_prefix l1 l2 : l1 `prefix_of` l2 → ascending l2 → ascending l1.
Proof. intros [k ->] Hasc. by apply StronglySorted_app_1_l in Hasc. Qed.

Lemma upgrade_from_trace g w :
  ∃ attempted,
    trace (upgrade_from g w).2 = trace w ++ (EvUp <$> versions attempted)
    ∧ ascending attempted
    ∧ versions attempted ⊆ versions (migrations w).
Proof.
  unfold upgrade_from.
  destruct (checkOldMigration w) as [[[[mc left_] err]| |] w3] eqn:Hres.
  - destruct (checkOldMigration_world _ _ _ Hres) as [_ Htr].
    destruct (checkOldMigration_Ret _ _ _ _ _ Hres) as (sorted & Hs & -> & -> & Hcase).
    destruct (sortAndConnectMigrations_Some _ _ Hs) as (_ & Hperm & _).
    pose proof (checkOldMigration_ascending _ _ _ _ Hres) as Hasc.
    case_bool_decide.
    + destruct (apply_left_trace left_ (with_migrations w sorted))
        as (att & Hpre & Hatt & _ & _).
      assert (versions att ⊆ versions (migrations w)) as Hsub.
      { intros x (m & -> & Hm)%list_elem_of_fmap. rewrite <- Hperm.
        apply list_elem_of_fmap. exists m. split; [done|].
        pose proof (elem_of_prefix _ _ _ Hm Hpre) as Hleft.
        destruct Hcase as [[_ ->] | [_ ->]]; [done | by eapply subseteq_drop]. }
      exists att. split_and!; [ | by eapply ascending_prefix | done].
      by destruct (apply_left _ _) as [[e|] w4].
    + exists []. simpl. rewrite app_nil_r. split_and!; [done | constructor | ].
      intros x Hx. by apply not_elem_of_nil in Hx.
  - destruct (checkOldMigration_world _ _ _ Hres) as [_ Htr].
    exists []. simpl. rewrite app_nil_r. split_and!; [done | constructor | ].
    intros x Hx. by apply not_elem_of_nil in Hx.
  - destruct (checkOldMigration_world _ _ _ Hres) as [_ Htr].
    exists []. simpl. rewrite app_nil_r. split_and!; [done | constructor | ].
    intros x Hx. by apply not_elem_of_nil in Hx.
Qed.

(** X7.  In every run, whatever the database does, the only actions
    [ApplyMigrations] invokes are forward actions of migrations of the
    registry, in strictly ascending order of version (so each at most
    once); it never invokes a reverse action. *)
Theorem ApplyMigrations_only_forward w :
  ∃ attempted,
    invoked w (ApplyMigrations w).2 = EvUp <$> versions attempted
    ∧ ascending attempted
    ∧ versions attempted ⊆ versions (migrations w).
Proof.
  assert (∃ attempted : Migrations,
            [] = EvUp <$> versions attempted ∧ ascending attempted
            ∧ versions attempted ⊆ versions (migrations w)) as Hnone.
  { exists []. split_and!; [done | constructor | ].
    intros x Hx. by apply not_elem_of_nil in Hx. }
  unfold ApplyMigrations.
  destruct (create_tables tables (db w)) as [d1 [e1|]].
  { simpl. by rewrite invoked_same. }
  destruct (GetDBVersion d1) as [d2 [g err]].
  destruct (upgrade_from_trace g (with_db w d2)) as (att & Htr & Hasc & Hsub).
  assert (invoked w (upgrade_from g (with_db w d2)).2 = EvUp <$> versions att) as Hinv
    by by apply invoked_app.
  destruct err as [e0|]; [|by exists att].
  case_bool_decide; [|by exists att].
  simpl. by rewrite invoked_same.
Qed.

(** X8.  A legacy version beyond the number of registered migrations makes
    the slice expression [migrationsSorted[current:]] panic:
    [ApplyMigrations] then ends in that panic, after sorting the registry
    and without invoking any migration action. *)
Theorem ApplyMigrations_legacy_beyond_registry w d1 d2 gooseCurrent err v :
  create_tables tables (db w) = (d1, None) →
  GetDBVersion d1 = (d2, (gooseCurrent, err)) →
  err = None ∨ err = Some ErrNoNextVersion →
  NoDup (versions (migrations w)) →
  QueryRowScan old_version_query d2 = ScanRow v false →
  Z.of_nat (length (migrations w)) < v →
  ∃ sorted,
    sortAndConnectMigrations (migrations w) = Some sorted
    ∧ ApplyMigrations w = (Panic, with_migrations (with_db w d2) sorted)
    ∧ invoked w (ApplyMigrations w).2 = [].
Proof.
  intros Hct Hv Herr Hnd Hrow Hlong.
  destruct (sortAndConnectMigrations_is_Some _ Hnd) as [sorted Hs].
  destruct (sortAndConnectMigrations_Some _ _ Hs) as (_ & _ & Hlen).
  exists sorted. split; [done|].
  rewrite (ApplyMigrations_reached _ _ _ _ _ Hct Hv Herr).
  unfold upgrade_from, checkOldMigration. simpl. rewrite Hs.
  rewrite ?checkOldMigrationTableVersionIfExists_eq. simpl. rewrite Hrow. simpl.
  rewrite bool_decide_eq_true_2 by lia.
  unfold slice_from. rewrite bool_decide_eq_false_2 by lia.
  split; [done|]. by apply invoked_same.
Qed.

(** *** [DownAll] *)

Lemma Current_None ms v : v ∉ versions ms → Current ms v = None.
Proof.
  induction ms as [|m ms IH]; simpl; [done|].
  intros [Hne Hnin]%not_elem_of_cons.
  case_decide; [done|]. by apply IH.
Qed.

(** X9.  When the version goose has recorded is not the version of any
    registered migration (a database goose has just initialised, at version
    [0], for one), [DownAll] returns success in its first iteration and
    invokes no reverse action. *)
Theorem DownAll_unknown_version w d1 v fuel :
  NoDup (versions (migrations w)) →
  GetDBVersion (db w) = (d1, (v, None)) →
  v ∉ versions (migrations w) →
  (DownAll (S fuel) w).1 = Some (Ret None)
  ∧ db (DownAll (S fuel) w).2 = d1
  ∧ invoked w (DownAll (S fuel) w).2 = [].
Proof.
  intros Hnd Hv Hnin.
  destruct (sortAndConnectMigrations_is_Some _ Hnd) as [sorted Hs].
  destruct (sortAndConnectMigrations_Some _ _ Hs) as (_ & Hperm & _).
  unfold DownAll. rewrite Hs. simpl. rewrite Hv. simpl.
  rewrite Current_None by by rewrite Hperm.
  split_and!; try done. by apply invoked_same.
Qed.
Lemma DownAll_loop_descending :
  (∀ d d1 v m d2 d3 v',
     GetDBVersion d = (d1, (v, None)) → Version m = v → 1 < v →
     Down m d1 = (d2, None) →
     GetDBVersion d2 = (d3, (v', None)) → v' < v) →
  ∀ fuel w,
    ∃ vs,
      trace (DownAll_loop fuel w).2 = trace w ++ (EvDown <$> vs)
      ∧ StronglySorted (λ a b, b < a) vs
      ∧ Forall (λ x, x ∈ versions (migrations w) ∧ 1 < x) vs
      ∧ (∀ d1 v e, GetDBVersion (db w) = (d1, (v, e)) →
           match e with
           | Some _ => vs = []
           | None => Forall (λ x, x ≤ v) vs
           end).
Proof.
  intros Hdec fuel. induction fuel as [|fuel IH]; intros w.
  { exists []. simpl. rewrite app_nil_r. split_and!; try done; [constructor|].
    intros d1 v [e|] _; [done | constructor]. }
  simpl.
  destruct (GetDBVersion (db w)) as [d1 [v [e|]]] eqn:Hv; simpl.
  { exists []. rewrite app_nil_r. split_and!; try done; [constructor|].
    by intros d1' v' e' [= <- <- <-]. }
  destruct (Current (migrations w) v) as [current|] eqn:Hcur; simpl.
  2:{ exists []. rewrite app_nil_r. split_and!; try done; [constructor|].
      intros d1' v' e' [= <- <- <-]. constructor. }
  destruct (Current_Some _ _ _ Hcur) as [Hcv Hin].
  case_bool_decide as Hle; simpl.
  { exists []. rewrite app_nil_r. split_and!; try done; [constructor|].
    intros d1' v' e' [= <- <- <-]. constructor. }
  assert (Version current ∈ versions (migrations w) ∧ 1 < Version current) as Hgood.
  { split; [|lia]. apply list_elem_of_fmap. by exists current. }
  destruct (Down current d1) as [d2 [e|]] eqn:Hdown; simpl.
  - exists [Version current]. split_and!; try done.
    + repeat constructor.
    + by constructor.
    + intros d1' v' e' [= <- <- <-]. constructor; [lia | constructor].
  - destruct (IH (record (with_db w d1) d2 (EvDown (Version current))))
      as (vs & Htr & Hsorted & Hall & Hbound).
    simpl in *.
    assert (Forall (λ x, x < Version current) vs) as Hbelow.
    { destruct (GetDBVersion d2) as [d3 [v' [e'|]]] eqn:Hv'.
      - by rewrite (Hbound _ _ _ eq_refl).
      - pose proof (Hbound _ _ _ eq_refl) as Hb. simpl in Hb.
        pose proof (Hdec _ _ _ _ _ _ _ Hv Hcv ltac:(lia) Hdown Hv') as Hlt.
        eapply Forall_impl; [exact Hb|]. simpl. lia. }
    exists (Version current :: vs). split_and!.
    + rewrite Htr. simpl. by rewrite <- app_assoc.
    + by constructor.
    + by constructor.
    + intros d1' v' e' [= <- <- <-]. constructor; [lia|].
      eapply Forall_impl; [exact Hbelow|]. simpl. lia.
Qed.

(** X10.  When every successful reverse action strictly lowers the version
    goose records, the reverse actions [DownAll] invokes go down the
    registry: they belong to registered versions above [1] and their
    versions are strictly descending, so no migration is reversed twice. *)
Theorem DownAll_descending w fuel :
  (∀ d d1 v m d2 d3 v',
     GetDBVersion d = (d1, (v, None)) → Version m = v → 1 < v →
     Down m d1 = (d2, None) →
     GetDBVersion d2 = (d3, (v', None)) → v' < v) →
  ∃ vs,
    invoked w (DownAll fuel w).2 = EvDown <$> vs
    ∧ StronglySorted (λ a b, b < a) vs
    ∧ Forall (λ x, x ∈ versions (migrations w) ∧ 1 < x) vs.
Proof.
  intros Hdec. unfold DownAll.
  destruct (sortAndConnectMigrations (migrations w)) as [sorted|] eqn:Hs.
  - destruct (sortAndConnectMigrations_Some _ _ Hs) as (_ & Hperm & _).
    destruct (DownAll_loop_descending Hdec fuel (with_migrations w sorted))
      as (vs & Htr & Hsorted & Hall & _).
    exists vs. split_and!; [by apply invoked_app | done |].
    eapply Forall_impl; [exact Hall|]. simpl. intros x [Hx ?].
    split; [|done]. by rewrite <- Hperm.
  - exists []. split_and!; [by apply invoked_same | constructor | constructor].
Qed.





Lemma DownAll_loop_error fuel w e w' :
  DownAll_loop fuel w = (Some (Ret (Some e)), w') →
  (∃ d d' v, GetDBVersion d = (d', (v, Some e)))
  ∨ (∃ m d d', m ∈ migrations w ∧ 1 < Version m ∧ Down m d = (d', Some e)
       ∧ last (trace w') = Some (EvDown (Version m))).
Proof.
  revert w. induction fuel as [|fuel IH]; intros w; simpl; [done|].
  destruct (GetDBVersion (db w)) as [d1 [v [e0|]]] eqn:Hv; simpl.
  { intros [= <- <-]. left. by exists (db w), d1, v. }
  destruct (Current (migrations w) v) as [current|] eqn:Hcur; simpl; [|done].
  destruct (Current_Some _ _ _ Hcur) as [_ Hin].
  case_bool_decide as Hle; [done|].
  destruct (Down current d1) as [d2 [e0|]] eqn:Hdown; simpl.
  - intros [= <- <-]. right. exists current, d1, d2. split_and!; try done; [lia|].
    simpl. by rewrite last_snoc.
  - intros Hrun. by apply IH in Hrun.
Qed.

(** X12.  Every error [DownAll] returns is either an error of goose's
    version query ([ErrNoNextVersion] included: here it is not set aside) or
    the error of the reverse action invoked last, of a registered migration
    above version [1]; the loop stops with it. *)
Theorem DownAll_error_sources w fuel e :
  (DownAll fuel w).1 = Some (Ret (Some e)) →
  (∃ d d' v, GetDBVersion d = (d', (v, Some e)))
  ∨ (∃ m d d', Version m ∈ versions (migrations w) ∧ 1 < Version m
       ∧ Down m d = (d', Some e)
       ∧ last (trace (DownAll fuel w).2) = Some (EvDown (Version m))).
Proof.
  unfold DownAll.
  destruct (sortAndConnectMigrations (migrations w)) as [sorted|] eqn:Hs; [|done].
  destruct (sortAndConnectMigrations_Some _ _ Hs) as (_ & Hperm & _).
  destruct (DownAll_loop fuel (with_migrations w sorted)) as [r w'] eqn:Hrun.
  simpl. intros ->.
  destruct (DownAll_loop_error _ _ _ _ Hrun)
    as [Hq | (m & d & d' & Hin & Hgt & Hdown & Hlast)]; [by left | right].
  exists m, d, d'. split_and!; try done.
  rewrite <- Hperm. apply list_elem_of_fmap. by exists m.
Qed.

End EngineMore.

Lemma checkOldMigration_returns_witness :
  ∃ left_ w',
    checkOldMigration Sim.bridge = (Ret (2, left_, None), w')
    ∧ left_ `suffix_of` migrations w'
    ∧ Z.of_nat (length left_) = Z.of_nat (length (migrations Sim.bridge)) - 2.
Proof.
  pose (sorted := default [] (sortAndConnectMigrations (migrations Sim.bridge))).
  assert (checkOldMigration Sim.bridge
          = (Ret (2, drop 2 sorted, None), with_migrations Sim.bridge sorted)) as Hres
    by reflexivity.
  exists (drop 2 sorted), (with_migrations Sim.bridge sorted).
  split; [exact Hres|].
  destruct (checkOldMigration_returns _ _ _ _ _ Hres)
    as (_ & _ & _ & Hsuf & _ & [[Hneg _] | [_ Hlen]]).
  - discriminate Hneg.
  - split; [exact Hsuf | exact Hlen].
Defined.

Lemma ApplyMigrations_bootstrap_failure_witness :
  ApplyMigrations (mkWorld (Sim.mig <$> [2; 1]) 0%nat [])
    = (Ret (Some Broken.refused), mkWorld (Sim.mig <$> [2; 1]) 2%nat [])
  ∧ invoked (mkWorld (Sim.mig <$> [2; 1]) 0%nat [])
      (ApplyMigrations (mkWorld (Sim.mig <$> [2; 1]) 0%nat [])).2 = [].
Proof.
  exact (ApplyMigrations_bootstrap_failure
           (mkWorld (Sim.mig <$> [2; 1]) 0%nat [])
           (take 2 tables) (default ""%string (tables !! 2%nat)) (drop 3 tables)
           2%nat 2%nat Broken.refused eq_refl eq_refl eq_refl).
Defined.

Lemma ApplyMigrations_legacy_beyond_registry_witness :
  ∃ sorted,
    sortAndConnectMigrations (Sim.mig <$> [2; 1]) = Some sorted
    ∧ ApplyMigrations (Sim.world [2; 1] (Sim.mkDB [0] (ScanRow 3 false) []))
      = (Panic, mkWorld sorted (Sim.mkDB [0] (ScanRow 3 false) []) [])
    ∧ invoked (Sim.world [2; 1] (Sim.mkDB [0] (ScanRow 3 false) []))
        (ApplyMigrations (Sim.world [2; 1] (Sim.mkDB [0] (ScanRow 3 false) []))).2 = [].
Proof.
  assert (NoDup (versions (Sim.mig <$> [2; 1]))) as Hnd by compute_done.
  assert (Z.of_nat (length (Sim.mig <$> [2; 1])) < 3) as Hlong by (simpl; lia).
  exact (ApplyMigrations_legacy_beyond_registry
           (Sim.world [2; 1] (Sim.mkDB [0] (ScanRow 3 false) []))
           (Sim.mkDB [0] (ScanRow 3 false) []) (Sim.mkDB [0] (ScanRow 3 false) [])
           0 None 3 eq_refl eq_refl (or_introl eq_refl) Hnd eq_refl Hlong).
Defined.

Lemma DownAll_unknown_version_witness :
  (DownAll 1 (Sim.world [2; 1] (Sim.mkDB [0] ScanNoRows []))).1 = Some (Ret None)
  ∧ db (DownAll 1 (Sim.world [2; 1] (Sim.mkDB [0] ScanNoRows []))).2
    = Sim.mkDB [0] ScanNoRows []
  ∧ invoked (Sim.world [2; 1] (Sim.mkDB [0] ScanNoRows []))
      (DownAll 1 (Sim.world [2; 1] (Sim.mkDB [0] ScanNoRows []))).2 = [].
Proof.
  assert (NoDup (versions (Sim.mig <$> [2; 1]))) as Hnd by compute_done.
  assert (0 ∉ versions (Sim.mig <$> [2; 1])) as Hnin by compute_done.
  exact (DownAll_unknown_version
           (Sim.world [2; 1] (Sim.mkDB [0] ScanNoRows []))
           (Sim.mkDB [0] ScanNoRows []) 0 0%nat Hnd eq_refl Hnin).
Defined.

Lemma DownAll_descending_witness :
  ∃ vs,
    invoked (mkWorld (Sim.mig <$> [3; 1; 2]) (3 : Z) [])
      (DownAll 5 (mkWorld (Sim.mig <$> [3; 1; 2]) (3 : Z) [])).2 = EvDown <$> vs
    ∧ StronglySorted (λ a b, b < a) vs
    ∧ Forall (λ x, x ∈ versions (Sim.mig <$> [3; 1; 2]) ∧ 1 < x) vs.
Proof.
  assert (∀ (d d1 : Z) v (m : Migration) (d2 d3 : Z) v',
            GetDBVersion d = (d1, (v, None)) → Version m = v → 1 < v →
            Down m d1 = (d2, None) →
            GetDBVersion d2 = (d3, (v', None)) → v' < v) as Hdec.
  { simpl. intros d d1 v m d2 d3 v' Hv _ _ Hdown Hv'. simplify_eq. lia. }
  exact (DownAll_descending (mkWorld (Sim.mig <$> [3; 1; 2]) (3 : Z) []) 5 Hdec).
Defined.


(** Three migrations applied in order, then rolled back: 3 and 2 are
    reversed, 1 is kept. *)
Example DownAll_rollback_example :
  invoked (mkWorld (Sim.mig <$> [3; 1; 2]) (Linked.mkDB 3) [])
    (DownAll 4 (mkWorld (Sim.mig <$> [3; 1; 2]) (Linked.mkDB 3) [])).2
  = [EvDown 3; EvDown 2].
Proof. by vm_compute. Qed.

Lemma ApplyMigrations_error_sources_witness :
  ∃ (m : Migration) (d d' : Sim.DB),
    m ∈ migrations (ApplyMigrations Sim.failing).2
    ∧ Up m d = (d', Some Sim.boom)
    ∧ last (trace (ApplyMigrations Sim.failing).2) = Some (EvUp (Version m)).
Proof.
  assert (ApplyMigrations Sim.failing
          = (Ret (Some Sim.boom), (ApplyMigrations Sim.failing).2)) as Hrun
    by reflexivity.
  destruct (ApplyMigrations_error_sources _ _ _ Hrun)
    as [(d' & Hct & _) | [(d1 & d2 & v & Hct & Hv & _) | Hup]].
  - discriminate Hct.
  - injection Hct as <-. discriminate Hv.
  - exact Hup.
Defined.

Lemma DownAll_error_sources_witness :
  ∃ (m : Migration) (d d' : nat),
    Version m ∈ versions (Sim.mig <$> [1; 2]) ∧ 1 < Version m
    ∧ Down m d = (d', Some Broken.refused)
    ∧ last (trace (DownAll 3 (mkWorld (Sim.mig <$> [1; 2]) 2%nat [])).2)
      = Some (EvDown (Version m)).
Proof.
  assert ((DownAll 3 (mkWorld (Sim.mig <$> [1; 2]) 2%nat [])).1
          = Some (Ret (Some Broken.refused))) as Hrun by reflexivity.
  destruct (DownAll_error_sources _ _ _ Hrun)
    as [(d & d' & v & Hv) | Hdown].
  - discriminate Hv.
  - exact Hdown.
Defined.

(** C1.  The outstanding migrations are meant to be those of the sorted
    registry with a version above the legacy version [v] (the partial
    upgrade skips the migrations already applied); [checkOldMigration]
    takes [migrationsSorted[v:]] instead, the version used as an index.
    Where the versions are not [1 .. n] the two differ.  With versions
    1, 3, 5 and a legacy version of 3, migration 5 is left out and
    [ApplyMigrations] reports success without invoking anything; with
    versions 2, 4, 6, 8, 10 and a legacy version of 2, migration 4, which
    was never applied, is skipped; with versions 10, 20, 30 and a legacy
    version of 10, the slice expression panics. *)
Theorem checkOldMigration_cuts_by_index :
  (∃ w',
     checkOldMigration Sim.gaps = (Ret (3, [], None), w')
     ∧ filter (λ x, 3 < x) (versions (migrations w')) = [5])
  ∧ ((ApplyMigrations Sim.gaps).1 = Ret None
     ∧ invoked Sim.gaps (ApplyMigrations Sim.gaps).2 = [])
  ∧ (∃ left_ w',
       checkOldMigration
         (Sim.world [2; 4; 6; 8; 10] (Sim.mkDB [0] (ScanRow 2 false) []))
       = (Ret (2, left_, None), w')
       ∧ versions left_ = [6; 8; 10]
       ∧ filter (λ x, 2 < x) (versions (migrations w')) = [4; 6; 8; 10])
  ∧ (checkOldMigration
       (Sim.world [10; 20; 30] (Sim.mkDB [0] (ScanRow 10 false) []))).1 = Panic.
Proof.
  split; [|split; [|split]].
  - eexists. split; reflexivity.
  - by vm_compute.
  - eexists _, _. split_and!; reflexivity.
  - reflexivity.
Qed.
